(** * The sliding-tile puzzle engine of the greeting application

    A shallow embedding of the puzzle engine found in
    [src/app/components/ValentineExperience.tsx] and in the stand-alone
    [SlidingPuzzle] component, together with the properties of the engine
    that its design document states.

    Conventions of the embedding:
    - JavaScript numbers that hold cell indices and tile ids are integers;
      they are modelled as [Z].  [Math.floor(a / b)] is [Z.div] (floor
      division, for a non-zero divisor) and [a % b] is [Z.rem] (the sign of
      the result follows the dividend, as in JavaScript).
    - Arrays are lists; [arr[i]] is the lookup [arr !! i], an assignment to a
      field of [arr[i]] is an insert at [i].  Reading a field of [undefined]
      raises a [TypeError]: every function that can do so returns an
      [option], and [None] stands for the exception.
    - React state ([useState]) is a record threaded through the handlers.
    - [Math.random] is an oracle given as a parameter (see [validRandom]). *)

From stdpp Require Import base relations list.
From Stdlib Require Import ZArith Lia.

Local Open Scope Z_scope.

(** ** Data model *)

(** [interface Tile { id: number; currentPosition: number }] *)
Record Tile : Type := mkTile { id : Z; currentPosition : Z }.

#[global] Instance Tile_eq_dec : EqDecision Tile.
Proof. solve_decision. Defined.

(** The object spread [{ ...t, currentPosition: p }]. *)
Definition withCurrentPosition (t : Tile) (p : Z) : Tile :=
  {| id := id t; currentPosition := p |}.

(** ** Array helpers, as JavaScript has them *)

(** [arr.findIndex(pred)]; [None] stands for the result [-1]. *)
Definition findIndex {A} (P : A → Prop) `{∀ x, Decision (P x)}
    (arr : list A) : option nat :=
  fst <$> list_find P arr.

(** [arr.find(pred)]; [None] stands for [undefined]. *)
Definition find {A} (P : A → Prop) `{∀ x, Decision (P x)}
    (arr : list A) : option A :=
  snd <$> list_find P arr.

(** [arr.includes(x)] on numbers. *)
Definition includes (arr : list Z) (x : Z) : bool := bool_decide (x ∈ arr).

(** [arr.every(tile => tile.id === tile.currentPosition)] *)
Definition everyAtHome (arr : list Tile) : bool :=
  forallb (λ tile, id tile =? currentPosition tile) arr.

(** [arr[i].currentPosition = p]: a [TypeError] when [arr[i]] is undefined. *)
Definition assignCurrentPosition (arr : list Tile) (i : nat) (p : Z)
    : option (list Tile) :=
  t ← arr !! i; Some (<[i := withCurrentPosition t p]> arr).

(** ** Move validator *)

(** [getValidMoves(position, gridSize)]: the candidates are pushed in the
    order up, down, left, right.  The embedding of the division is that of
    JavaScript for a non-zero [gridSize]; the properties that depend on the
    moves assume it. *)
Definition getValidMoves (position gridSize : Z) : list Z :=
  let moves : list Z := [] in
  let row := position `div` gridSize in
  let col := position `rem` gridSize in
  let moves := if 0 <? row then moves ++ [position - gridSize] else moves in
  let moves := if row <? gridSize - 1 then moves ++ [position + gridSize] else moves in
  let moves := if 0 <? col then moves ++ [position - 1] else moves in
  let moves := if col <? gridSize - 1 then moves ++ [position + 1] else moves in
  moves.

(** ** Randomness

    [Math.floor(Math.random() * len)] at the [i]-th draw of a shuffle is
    [randomIndex i len].  [Math.random] returns a number in [[0, 1)], so the
    index is below [len] whenever [len] is positive.  Nothing more is
    assumed of the draws: their distribution is not part of the model. *)
Definition Random : Type := nat → nat → nat.

Definition validRandom (randomIndex : Random) : Prop :=
  ∀ i len, (0 < len)%nat → (randomIndex i len < len)%nat.

(** ** The engine, for a component instantiated with [gridSize] *)

Section Engine.
Variable gridSize : Z.

Definition totalTiles : Z := gridSize * gridSize.
Definition blankTileId : Z := totalTiles - 1.

(** [Array.from({ length: totalTiles }, (_, i) => ({ id: i, currentPosition: i }))] *)
Definition initialTiles : list Tile :=
  (λ i, {| id := Z.of_nat i; currentPosition := Z.of_nat i |})
    <$> seq 0 (Z.to_nat totalTiles).

(** One iteration of the [for] loop of [shufflePuzzle]: the state is the
    array [shuffled] and the tracker [blankPos].  Both indices are looked
    up before either tile is written, and the second write sees the first.
    When [validMoves] has no element at the drawn index, [randomMove] is
    [undefined], no tile is found on it and the write to
    [shuffled[tileIndex]] raises: the step is [None]. *)
Definition shuffleStep (randomIndex : Random) (i : nat)
    (s : list Tile * Z) : option (list Tile * Z) :=
  let '(shuffled, blankPos) := s in
  let validMoves := getValidMoves blankPos gridSize in
  randomMove ← validMoves !! randomIndex i (length validMoves);
  blankIndex ← findIndex (λ t, currentPosition t = blankPos) shuffled;
  tileIndex ← findIndex (λ t, currentPosition t = randomMove) shuffled;
  shuffled ← assignCurrentPosition shuffled blankIndex randomMove;
  shuffled ← assignCurrentPosition shuffled tileIndex blankPos;
  Some (shuffled, randomMove).

(** [for (let i = ...; i < ...; i++)] with [n] iterations left. *)
Fixpoint shuffleLoop (randomIndex : Random) (n i : nat)
    (s : list Tile * Z) : option (list Tile * Z) :=
  match n with
  | O => Some s
  | S n' => s' ← shuffleStep randomIndex i s; shuffleLoop randomIndex n' (S i) s'
  end.

(** [shufflePuzzle(tiles)] *)
Definition shufflePuzzle (randomIndex : Random) (tiles : list Tile)
    : option (list Tile) :=
  fst <$> shuffleLoop randomIndex 100 0 (tiles, blankTileId).

(** The callback of [tiles.map] in [handleTileClick]. *)
Definition moveTile (clickedTile blankTile t : Tile) : Tile :=
  if id t =? id clickedTile
  then withCurrentPosition t (currentPosition blankTile)
  else if id t =? blankTileId
  then withCurrentPosition t (currentPosition clickedTile)
  else t.
End Engine.

(** ** The component [ValentineExperience]

    Only the puzzle state is modelled: [tiles] and [isSolved].  The narrative
    [stage], which [checkIfSolved] advances through a timer, and the state of
    the buttons belong to the presentation and take no part in the engine. *)

Module ValentineExperience.

Record State : Type := mkState { tiles : list Tile; isSolved : bool }.

Definition setTiles (st : State) (v : list Tile) : State :=
  {| tiles := v; isSolved := isSolved st |}.
Definition setIsSolved (st : State) (v : bool) : State :=
  {| tiles := tiles st; isSolved := v |}.

Section Component.
Variable gridSize : Z.

(** [initializePuzzle()]: reads nothing of the previous state. *)
Definition initializePuzzle (randomIndex : Random) (st : State)
    : option State :=
  shuffled ← shufflePuzzle gridSize randomIndex (initialTiles gridSize);
  Some (setIsSolved (setTiles st shuffled) false).

(** [checkIfSolved(currentTiles)] *)
Definition checkIfSolved (st : State) (currentTiles : list Tile) : State :=
  let solved := everyAtHome currentTiles in
  if solved then setIsSolved st true else st.

(** [handleTileClick(clickedTile)] *)
Definition handleTileClick (st : State) (clickedTile : Tile)
    : option State :=
  if isSolved st then Some st else
  blankTile ← find (λ t, id t = blankTileId gridSize) (tiles st);
  let validMoves := getValidMoves (currentPosition blankTile) gridSize in
  if includes validMoves (currentPosition clickedTile) then
    let newTiles := moveTile gridSize clickedTile blankTile <$> tiles st in
    let st := setTiles st newTiles in
    Some (checkIfSolved st newTiles)
  else Some st.
End Component.

End ValentineExperience.

(** ** The component [SlidingPuzzle]: the same engine with a move counter *)

Module SlidingPuzzle.

Record State : Type := mkState
  { tiles : list Tile; isSolved : bool; moves : Z; hasStarted : bool }.

Definition setTiles (st : State) (v : list Tile) : State :=
  {| tiles := v; isSolved := isSolved st; moves := moves st;
     hasStarted := hasStarted st |}.
Definition setIsSolved (st : State) (v : bool) : State :=
  {| tiles := tiles st; isSolved := v; moves := moves st;
     hasStarted := hasStarted st |}.
(** [setMoves(v)] and the updater form [setMoves(m => f(m))]. *)
Definition setMoves (st : State) (f : Z → Z) : State :=
  {| tiles := tiles st; isSolved := isSolved st; moves := f (moves st);
     hasStarted := hasStarted st |}.
Definition setHasStarted (st : State) (v : bool) : State :=
  {| tiles := tiles st; isSolved := isSolved st; moves := moves st;
     hasStarted := v |}.

Section Component.
Variable gridSize : Z.

(** [initializePuzzle()] *)
Definition initializePuzzle (randomIndex : Random) (st : State)
    : option State :=
  shuffled ← shufflePuzzle gridSize randomIndex (initialTiles gridSize);
  let st := setTiles st shuffled in
  let st := setIsSolved st false in
  Some (setMoves st (λ _, 0)).

(** [handleStart()] *)
Definition handleStart (randomIndex : Random) (st : State) : option State :=
  initializePuzzle randomIndex (setHasStarted st true).

(** [handleReset()] *)
Definition handleReset (st : State) : State :=
  setMoves (setIsSolved (setHasStarted st false) false) (λ _, 0).

(** [checkIfSolved(currentTiles)] *)
Definition checkIfSolved (st : State) (currentTiles : list Tile) : State :=
  let solved := everyAtHome currentTiles in
  if solved then setIsSolved st true else st.

(** [handleTileClick(clickedTile)] *)
Definition handleTileClick (st : State) (clickedTile : Tile)
    : option State :=
  if isSolved st then Some st else
  blankTile ← find (λ t, id t = blankTileId gridSize) (tiles st);
  let validMoves := getValidMoves (currentPosition blankTile) gridSize in
  if includes validMoves (currentPosition clickedTile) then
    let newTiles := moveTile gridSize clickedTile blankTile <$> tiles st in
    let st := setTiles st newTiles in
    let st := setMoves st (λ m, m + 1) in
    Some (checkIfSolved st newTiles)
  else Some st.

(** A click is accepted when the puzzle is not locked and the clicked tile
    sits on a cell next to the blank. *)
Definition accepted (st : State) (clickedTile : Tile) : bool :=
  negb (isSolved st) &&
  match find (λ t, id t = blankTileId gridSize) (tiles st) with
  | Some blankTile =>
      includes (getValidMoves (currentPosition blankTile) gridSize)
               (currentPosition clickedTile)
  | None => false
  end.
End Component.

(** What the engine of [ValentineExperience] sees of this state. *)
Definition engineView (st : State) : ValentineExperience.State :=
  {| ValentineExperience.tiles := tiles st;
     ValentineExperience.isSolved := isSolved st |}.

End SlidingPuzzle.

(** ** Vocabulary of the properties *)

Import ValentineExperience.

(** The engine's interface as the design document names it:
    [attemptMove] returns the board and the solved flag after the click. *)
Definition attemptMove (gridSize : Z) (st : State) (clickedTile : Tile)
    : option (list Tile * bool) :=
  (λ st', (tiles st', isSolved st')) <$> handleTileClick gridSize st clickedTile.

(** Row and column of a cell, in the row-major numbering. *)
Definition row (gridSize position : Z) : Z := position `div` gridSize.
Definition col (gridSize position : Z) : Z := position `mod` gridSize.

Definition onRowBorder (gridSize position : Z) : Prop :=
  row gridSize position = 0 ∨ row gridSize position = gridSize - 1.
Definition onColBorder (gridSize position : Z) : Prop :=
  col gridSize position = 0 ∨ col gridSize position = gridSize - 1.

Definition isCorner (gridSize position : Z) : Prop :=
  onRowBorder gridSize position ∧ onColBorder gridSize position.
Definition isInterior (gridSize position : Z) : Prop :=
  ¬ onRowBorder gridSize position ∧ ¬ onColBorder gridSize position.
Definition isEdge (gridSize position : Z) : Prop :=
  ¬ isCorner gridSize position ∧ ¬ isInterior gridSize position.

(** Two cells are orthogonal neighbours: same row and adjacent columns, or
    same column and adjacent rows. *)
Definition neighbours (gridSize p q : Z) : Prop :=
  (row gridSize q = row gridSize p ∧ Z.abs (col gridSize q - col gridSize p) = 1)
  ∨ (col gridSize q = col gridSize p ∧ Z.abs (row gridSize q - row gridSize p) = 1).

(** The cells of the grid, [0 .. N²-1]. *)
Definition cells (gridSize : Z) : list Z :=
  Z.of_nat <$> seq 0 (Z.to_nat (totalTiles gridSize)).

(** Exchange the occupants of the cells [a] and [b]. *)
Definition swapCells (a b : Z) (board : list Tile) : list Tile :=
  (λ t, if decide (currentPosition t = a) then withCurrentPosition t b
        else if decide (currentPosition t = b) then withCurrentPosition t a
        else t) <$> board.

(** The permutation of cells that exchanges [a] and [b]. *)
Definition transpose (a b x : Z) : Z :=
  if decide (x = a) then b else if decide (x = b) then a else x.

(** The cell occupied by the tile with identity [i]. *)
Definition positionOf (board : list Tile) (i : Z) : option Z :=
  currentPosition <$> find (λ t, id t = i) board.

(** A board is well formed when the tile at index [i] has identity [i] and
    the tiles occupy the cells of the grid, one tile per cell. *)
Definition wellFormed (gridSize : Z) (board : list Tile) : Prop :=
  id <$> board = cells gridSize ∧
  currentPosition <$> board ≡ₚ cells gridSize.

(** A legal sliding move on a board: the blank changes place with the tile
    on one of the valid moves from the blank's cell. *)
Definition slide (gridSize : Z) (board board' : list Tile) : Prop :=
  wellFormed gridSize board ∧
  ∃ blankPos chosen,
    positionOf board (blankTileId gridSize) = Some blankPos ∧
    chosen ∈ getValidMoves blankPos gridSize ∧
    board' = swapCells blankPos chosen board.

(** The states a session goes through: a state left by [initializePuzzle]
    (whatever the random draws), then clicks on tiles that are on display. *)
Inductive reachable (gridSize : Z) : State → Prop :=
| reachable_init randomIndex st0 st :
    validRandom randomIndex →
    initializePuzzle gridSize randomIndex st0 = Some st →
    reachable gridSize st
| reachable_click st clickedTile st' :
    reachable gridSize st →
    clickedTile ∈ tiles st →
    handleTileClick gridSize st clickedTile = Some st' →
    reachable gridSize st'.

(** A click is a legal move when the puzzle is not locked, the tile is on
    display and its cell is among the valid moves from the blank's cell. *)
Definition legalClick (gridSize : Z) (st : State) (clickedTile : Tile) : bool :=
  negb (isSolved st) && bool_decide (clickedTile ∈ tiles st) &&
  match find (λ t, id t = blankTileId gridSize) (tiles st) with
  | Some blankTile =>
      includes (getValidMoves (currentPosition blankTile) gridSize)
               (currentPosition clickedTile)
  | None => false
  end.

(** Play a sequence of clicks, each of which has to be a legal move. *)
Fixpoint playLegal (gridSize : Z) (st : State) (clicks : list Tile)
    : option State :=
  match clicks with
  | [] => Some st
  | c :: clicks' =>
      if legalClick gridSize st c
      then st' ← handleTileClick gridSize st c; playLegal gridSize st' clicks'
      else None
  end.

(** Play any sequence of clicks. *)
Fixpoint playClicks (gridSize : Z) (st : State) (clicks : list Tile)
    : option State :=
  match clicks with
  | [] => Some st
  | c :: clicks' =>
      st' ← handleTileClick gridSize st c; playClicks gridSize st' clicks'
  end.

(** The shuffle as the design document words it: [k] legal random moves
    from the identity board, the blank tracked from its home cell. *)
Inductive shuffleTrace (gridSize : Z) (randomIndex : Random)
    : nat → list Tile → Z → Prop :=
| trace_start :
    shuffleTrace gridSize randomIndex 0 (initialTiles gridSize)
                 (blankTileId gridSize)
| trace_step k board blankPos chosen :
    shuffleTrace gridSize randomIndex k board blankPos →
    getValidMoves blankPos gridSize
      !! randomIndex k (length (getValidMoves blankPos gridSize)) = Some chosen →
    shuffleTrace gridSize randomIndex (S k)
                 (swapCells blankPos chosen board) chosen.

(** Boards and states used in the examples (grid size 3). *)
Definition blankInCentre : list Tile :=
  [mkTile 0 0; mkTile 1 1; mkTile 2 2; mkTile 3 3; mkTile 4 5;
   mkTile 5 8; mkTile 6 6; mkTile 7 7; mkTile 8 4].
Definition blankMovedUp : list Tile :=
  [mkTile 0 0; mkTile 1 1; mkTile 2 2; mkTile 3 3; mkTile 4 4;
   mkTile 5 8; mkTile 6 6; mkTile 7 7; mkTile 8 5].

(** Random sources used in the examples. *)
Definition roundRobin : Random := λ i len, (i `mod` len)%nat.
Definition backAndForth : Random := λ i len, ((i `mod` 2) `mod` len)%nat.

(** ** The tile on display

    [getTileStyle(tile)] first computes four grid coordinates: the cell on
    which the tile is drawn and the cell of the picture that it shows.
    These are the integers modelled here; the CSS percentages that the
    function derives from them by floating-point division are not. *)

Module TileStyle.
Record Cells : Type := mkCells
  { row : Z; col : Z; originalRow : Z; originalCol : Z }.
End TileStyle.

Definition getTileStyle (gridSize : Z) (tile : Tile) : TileStyle.Cells :=
  {| TileStyle.row := currentPosition tile `div` gridSize;
     TileStyle.col := currentPosition tile `rem` gridSize;
     TileStyle.originalRow := id tile `div` gridSize;
     TileStyle.originalCol := id tile `rem` gridSize |}.

(** ** Sessions of [SlidingPuzzle] *)

(** The state the component is created with ([useState] initial values). *)
Definition slidingPuzzleInitial : SlidingPuzzle.State :=
  {| SlidingPuzzle.tiles := []; SlidingPuzzle.isSolved := false;
     SlidingPuzzle.moves := 0; SlidingPuzzle.hasStarted := false |}.

(** The states of a [SlidingPuzzle]: the effect run on mount initializes the
    puzzle; the Start button is on display while [hasStarted] is false; the
    tiles and the Reset / Play Again buttons while it is true. *)
Inductive slidingPuzzleSession (gridSize : Z) : SlidingPuzzle.State → Prop :=
| session_mount randomIndex st :
    validRandom randomIndex →
    SlidingPuzzle.initializePuzzle gridSize randomIndex slidingPuzzleInitial
      = Some st →
    slidingPuzzleSession gridSize st
| session_start randomIndex st st' :
    slidingPuzzleSession gridSize st →
    SlidingPuzzle.hasStarted st = false →
    validRandom randomIndex →
    SlidingPuzzle.handleStart gridSize randomIndex st = Some st' →
    slidingPuzzleSession gridSize st'
| session_reset st :
    slidingPuzzleSession gridSize st →
    SlidingPuzzle.hasStarted st = true →
    slidingPuzzleSession gridSize (SlidingPuzzle.handleReset st)
| session_click st clickedTile st' :
    slidingPuzzleSession gridSize st →
    SlidingPuzzle.hasStarted st = true →
    clickedTile ∈ SlidingPuzzle.tiles st →
    SlidingPuzzle.handleTileClick gridSize st clickedTile = Some st' →
    slidingPuzzleSession gridSize st'.

(** Play a sequence of clicks on a [SlidingPuzzle]. *)
Fixpoint slidingPuzzlePlay (gridSize : Z) (st : SlidingPuzzle.State)
    (clicks : list Tile) : option SlidingPuzzle.State :=
  match clicks with
  | [] => Some st
  | c :: clicks' =>
      st' ← SlidingPuzzle.handleTileClick gridSize st c;
      slidingPuzzlePlay gridSize st' clicks'
  end.

(** The number of clicks of a sequence that are accepted when it is played. *)
Fixpoint acceptedClicks (gridSize : Z) (st : SlidingPuzzle.State)
    (clicks : list Tile) : Z :=
  match clicks with
  | [] => 0
  | c :: clicks' =>
      match SlidingPuzzle.handleTileClick gridSize st c with
      | Some st' =>
          (if SlidingPuzzle.accepted gridSize st c then 1 else 0)
          + acceptedClicks gridSize st' clicks'
      | None => 0
      end
  end.

(** ** The whole component [ValentineExperience]

    The puzzle state together with the narrative [stage], [envelopeOpened]
    and [noClickCount].  A call [setTimeout(() => setStage(s), 1000)] adds
    [s] to the pending [timers]; all delays are equal, so the pending
    callbacks run in the order in which they were scheduled, at moments the
    model leaves open (the event [TimerFires]).  Not modelled: the position
    and scale of the No button (random floating-point numbers that no
    handler reads) and the confetti of [handleYesClick]. *)

Inductive Stage : Type :=
  envelope | preview | puzzle | message | question | final.

#[global] Instance Stage_eq_dec : EqDecision Stage.
Proof. solve_decision. Defined.

Module Shell.

Record State : Type := mkState
  { tiles : list Tile; isSolved : bool; stage : Stage;
    envelopeOpened : bool; noClickCount : Z; timers : list Stage }.

(** The values the component is created with. *)
Definition initial : State :=
  {| tiles := []; isSolved := false; stage := envelope;
     envelopeOpened := false; noClickCount := 0; timers := [] |}.

Definition setTiles (st : State) (v : list Tile) : State :=
  {| tiles := v; isSolved := isSolved st; stage := stage st;
     envelopeOpened := envelopeOpened st; noClickCount := noClickCount st;
     timers := timers st |}.
Definition setIsSolved (st : State) (v : bool) : State :=
  {| tiles := tiles st; isSolved := v; stage := stage st;
     envelopeOpened := envelopeOpened st; noClickCount := noClickCount st;
     timers := timers st |}.
Definition setStage (st : State) (v : Stage) : State :=
  {| tiles := tiles st; isSolved := isSolved st; stage := v;
     envelopeOpened := envelopeOpened st; noClickCount := noClickCount st;
     timers := timers st |}.
Definition setEnvelopeOpened (st : State) (v : bool) : State :=
  {| tiles := tiles st; isSolved := isSolved st; stage := stage st;
     envelopeOpened := v; noClickCount := noClickCount st;
     timers := timers st |}.
Definition setNoClickCount (st : State) (v : Z) : State :=
  {| tiles := tiles st; isSolved := isSolved st; stage := stage st;
     envelopeOpened := envelopeOpened st; noClickCount := v;
     timers := timers st |}.
(** [setTimeout(() => setStage(target), 1000)] *)
Definition setTimeout (st : State) (target : Stage) : State :=
  {| tiles := tiles st; isSolved := isSolved st; stage := stage st;
     envelopeOpened := envelopeOpened st; noClickCount := noClickCount st;
     timers := timers st ++ [target] |}.

(** The user's clicks and the firing of the oldest pending timer. *)
Inductive Event : Type :=
| EnvelopeClick
| StartPuzzleClick (randomIndex : Random)
| TileClick (clickedTile : Tile)
| ContinueClick
| YesClick
| NoClick
| TimerFires.

Section Component.
Variable gridSize : Z.

(** [initializePuzzle()] *)
Definition initializePuzzle (randomIndex : Random) (st : State)
    : option State :=
  shuffled ← shufflePuzzle gridSize randomIndex (initialTiles gridSize);
  Some (setIsSolved (setTiles st shuffled) false).

(** [handleEnvelopeClick()] *)
Definition handleEnvelopeClick (st : State) : State :=
  setTimeout (setEnvelopeOpened st true) preview.

(** [handleStartPuzzle()] *)
Definition handleStartPuzzle (randomIndex : Random) (st : State)
    : option State :=
  initializePuzzle randomIndex (setStage st puzzle).

(** [checkIfSolved(currentTiles)] *)
Definition checkIfSolved (st : State) (currentTiles : list Tile) : State :=
  let solved := everyAtHome currentTiles in
  if solved then setTimeout (setIsSolved st true) message else st.

(** [handleTileClick(clickedTile)] *)
Definition handleTileClick (st : State) (clickedTile : Tile)
    : option State :=
  if isSolved st then Some st else
  blankTile ← find (λ t, id t = blankTileId gridSize) (tiles st);
  let validMoves := getValidMoves (currentPosition blankTile) gridSize in
  if includes validMoves (currentPosition clickedTile) then
    let newTiles := moveTile gridSize clickedTile blankTile <$> tiles st in
    let st := setTiles st newTiles in
    Some (checkIfSolved st newTiles)
  else Some st.

(** [handleNoClick()], as far as the modelled state goes. *)
Definition handleNoClick (st : State) : State :=
  let newCount := noClickCount st + 1 in
  setNoClickCount st newCount.

(** [handleYesClick()], as far as the modelled state goes. *)
Definition handleYesClick (st : State) : State := setStage st final.

(** The oldest pending timer runs its callback. *)
Definition timerFires (st : State) : option State :=
  match timers st with
  | [] => None
  | target :: pending =>
      Some {| tiles := tiles st; isSolved := isSolved st; stage := target;
              envelopeOpened := envelopeOpened st;
              noClickCount := noClickCount st; timers := pending |}
  end.

(** An event reaches the handler that the view of the current stage binds
    to it; [None] when the view has no such control (or the handler
    raises). *)
Definition dispatch (st : State) (e : Event) : option State :=
  match e, stage st with
  | EnvelopeClick, envelope => Some (handleEnvelopeClick st)
  | StartPuzzleClick randomIndex, preview => handleStartPuzzle randomIndex st
  | TileClick clickedTile, puzzle =>
      if bool_decide (clickedTile ∈ tiles st)
      then handleTileClick st clickedTile else None
  | ContinueClick, message => Some (setStage st question)
  | YesClick, question => Some (handleYesClick st)
  | NoClick, question => Some (handleNoClick st)
  | TimerFires, _ => timerFires st
  | _, _ => None
  end.

(** A sequence of events, from the left. *)
Fixpoint run (st : State) (events : list Event) : option State :=
  match events with
  | [] => Some st
  | e :: events' => st' ← dispatch st e; run st' events'
  end.
End Component.

(** What the engine of [ValentineExperience] sees of this state. *)
Definition engineView (st : State) : ValentineExperience.State :=
  {| ValentineExperience.tiles := tiles st;
     ValentineExperience.isSolved := isSolved st |}.

(** The stages behind the puzzle. *)
Definition pastPuzzle (s : Stage) : bool :=
  match s with message | question | final => true | _ => false end.

(** The random sources of the events are in range. *)
Definition validEvent (e : Event) : Prop :=
  match e with
  | StartPuzzleClick randomIndex => validRandom randomIndex
  | _ => True
  end.

End Shell.

(** The stage is past the puzzle, or a pending timer leads there. *)
Definition gateOpen (st : Shell.State) : Prop :=
  Shell.pastPuzzle (Shell.stage st) = true ∨
  Exists (λ target, Shell.pastPuzzle target = true) (Shell.timers st).

(** Goals about short explicit lists of cells: no duplicates, no member. *)
Ltac solve_distinct :=
  rewrite ?NoDup_cons, ?not_elem_of_cons, ?elem_of_nil;
  repeat split; first [lia | tauto | apply NoDup_nil_2].

(** * Properties *)

(** ** Rows and columns *)

Lemma row_eq N q r c : 0 ≤ c < N → q = N * r + c → row N q = r.
Proof.
  intros Hc ->. unfold row. symmetry.
  apply (Z.div_unique _ _ r c); [left; lia | reflexivity].
Qed.

Lemma col_eq N q r c : 0 ≤ c < N → q = N * r + c → col N q = c.
Proof.
  intros Hc ->. unfold col. symmetry.
  apply (Z.mod_unique _ _ r c); [left; lia | reflexivity].
Qed.

Lemma cell_decompose N p :
  0 < N → p = N * row N p + col N p ∧ 0 ≤ col N p < N.
Proof.
  intros HN. unfold row, col. split.
  - apply Z.div_mod. lia.
  - apply Z.mod_pos_bound. lia.
Qed.

Lemma row_range N p : 0 < N → 0 ≤ p < N * N → 0 ≤ row N p < N.
Proof.
  intros HN Hp. unfold row. split.
  - apply Z.div_pos; lia.
  - apply Z.div_lt_upper_bound; lia.
Qed.

Lemma cell_of_row_col N r c :
  0 ≤ r < N → 0 ≤ c < N → 0 ≤ N * r + c < N * N.
Proof. nia. Qed.

(** ** The move validator in terms of rows and columns *)

Lemma getValidMoves_unfold N p :
  0 < N → 0 ≤ p →
  getValidMoves p N =
    (if 0 <? row N p then [p - N] else []) ++
    (if row N p <? N - 1 then [p + N] else []) ++
    (if 0 <? col N p then [p - 1] else []) ++
    (if col N p <? N - 1 then [p + 1] else []).
Proof.
  intros HN Hp. unfold getValidMoves, row, col.
  rewrite Z.rem_mod_nonneg by lia.
  repeat case_match; reflexivity.
Qed.

Lemma getValidMoves_length N p :
  0 < N → 0 ≤ p →
  length (getValidMoves p N) =
    ((if (0 <? row N p)%Z then 1 else 0) +
     (if (row N p <? N - 1)%Z then 1 else 0) +
     (if (0 <? col N p)%Z then 1 else 0) +
     (if (col N p <? N - 1)%Z then 1 else 0))%nat.
Proof.
  intros HN Hp. rewrite getValidMoves_unfold by done.
  repeat case_match; reflexivity.
Qed.

Lemma getValidMoves_elem N p q :
  0 < N → 0 ≤ p < N * N →
  q ∈ getValidMoves p N ↔ 0 ≤ q < N * N ∧ neighbours N p q.
Proof.
  intros HN Hp.
  destruct (cell_decompose N p HN) as [Ep Hc].
  pose proof (row_range N p HN Hp) as Hr.
  rewrite getValidMoves_unfold by lia.
  unfold neighbours.
  set (r := row N p) in *. set (c := col N p) in *.
  rewrite !elem_of_app. split.
  - intros Hq.
    assert (∃ r' c', 0 ≤ r' < N ∧ 0 ≤ c' < N ∧ q = N * r' + c' ∧
              ((r' = r ∧ Z.abs (c' - c) = 1) ∨ (c' = c ∧ Z.abs (r' - r) = 1)))
      as (r' & c' & Hr' & Hc' & Eq & Hn).
    { destruct Hq as [Hq|[Hq|[Hq|Hq]]]; case_match; try (by inversion Hq);
        apply list_elem_of_singleton in Hq.
      - exists (r - 1), c. split_and!; lia.
      - exists (r + 1), c. split_and!; lia.
      - exists r, (c - 1). split_and!; lia.
      - exists r, (c + 1). split_and!; lia. }
    rewrite (row_eq N q r' c') by done. rewrite (col_eq N q r' c') by done.
    split; [subst q; apply cell_of_row_col; lia | done].
  - intros [Hq Hn].
    destruct (cell_decompose N q HN) as [Eq Hc'].
    pose proof (row_range N q HN Hq) as Hr'.
    set (r' := row N q) in *. set (c' := col N q) in *.
    destruct Hn as [[Er Ec]|[Ec Er]].
    + destruct (decide (c' = c + 1)) as [E|E].
      * do 3 right. rewrite (proj2 (Z.ltb_lt c (N - 1))) by lia.
        apply list_elem_of_singleton. lia.
      * right; right; left. rewrite (proj2 (Z.ltb_lt 0 c)) by lia.
        apply list_elem_of_singleton. lia.
    + destruct (decide (r' = r + 1)) as [E|E].
      * right; left. rewrite (proj2 (Z.ltb_lt r (N - 1))) by lia.
        apply list_elem_of_singleton. lia.
      * left. rewrite (proj2 (Z.ltb_lt 0 r)) by lia.
        apply list_elem_of_singleton. lia.
Qed.

Lemma neighbours_sym N p q : neighbours N p q → neighbours N q p.
Proof. unfold neighbours. intros [[? ?]|[? ?]]; [left|right]; split; lia. Qed.

(** Adjacency is symmetric, and a valid move stays on the grid. *)
Lemma getValidMoves_sym N p q :
  0 < N → 0 ≤ p < N * N →
  q ∈ getValidMoves p N → 0 ≤ q < N * N ∧ p ∈ getValidMoves q N.
Proof.
  intros HN Hp [Hq Hn]%getValidMoves_elem; [|done..].
  split; [done|]. apply getValidMoves_elem; [done..|].
  split; [done|]. by apply neighbours_sym.
Qed.

Lemma getValidMoves_NoDup N p : 2 ≤ N → NoDup (getValidMoves p N).
Proof.
  intros HN. unfold getValidMoves.
  repeat case_match; simpl; solve_distinct.
Qed.

(** A cell is never a valid move from itself. *)
Lemma getValidMoves_irrefl N p : N ≠ 0 → p ∉ getValidMoves p N.
Proof.
  intros HN. unfold getValidMoves.
  repeat case_match; simpl; solve_distinct.
Qed.

(** A grid of side at least two leaves the blank a move from every cell. *)
Lemma getValidMoves_nonempty N p :
  2 ≤ N → 0 ≤ p < N * N → (0 < length (getValidMoves p N))%nat.
Proof.
  intros HN Hp. rewrite getValidMoves_length by lia.
  pose proof (row_range N p ltac:(lia) Hp).
  repeat case_match; lia.
Qed.

(** The corners of the grid are its four extreme cells. *)
Lemma isCorner_cells N p :
  2 ≤ N → 0 ≤ p < N * N →
  isCorner N p ↔ p ∈ [0; N - 1; N * (N - 1); N * N - 1].
Proof.
  intros HN Hp.
  destruct (cell_decompose N p ltac:(lia)) as [Ep Hc].
  pose proof (row_range N p ltac:(lia) Hp) as Hr.
  unfold isCorner, onRowBorder, onColBorder.
  rewrite !elem_of_cons, elem_of_nil. split.
  - intros [[Er|Er] [Ec|Ec]]; rewrite Er, Ec in Ep; lia.
  - intros [E|[E|[E|[E|[]]]]].
    + rewrite (row_eq N p 0 0), (col_eq N p 0 0) by lia. lia.
    + rewrite (row_eq N p 0 (N - 1)), (col_eq N p 0 (N - 1)) by lia. lia.
    + rewrite (row_eq N p (N - 1) 0), (col_eq N p (N - 1) 0) by lia. lia.
    + rewrite (row_eq N p (N - 1) (N - 1)), (col_eq N p (N - 1) (N - 1)) by lia.
      lia.
Qed.

(** C3. For every grid size [N >= 2] and every cell [p] of the grid,
    [getValidMoves p N] lists exactly the orthogonal neighbours of [p]:
    [p-N] iff [p] is not in the first row, [p+N] iff not in the last row,
    [p-1] iff not in the first column, [p+1] iff not in the last column, in
    that order and without repetition; so there are 2 results for a corner
    cell (the four cells [0], [N-1], [N(N-1)], [N²-1]), 3 for an edge cell
    that is no corner and 4 for an interior cell.  For [N = 3]:
    [validMoves(0) = [3,1]], [validMoves(4) = [1,7,3,5]],
    [validMoves(8) = [5,7]]. *)
Theorem getValidMoves_adjacency :
  (∀ N p, 2 ≤ N → 0 ≤ p ≤ N * N - 1 →
     getValidMoves p N =
       (if 0 <? row N p then [p - N] else []) ++
       (if row N p <? N - 1 then [p + N] else []) ++
       (if 0 <? col N p then [p - 1] else []) ++
       (if col N p <? N - 1 then [p + 1] else [])
     ∧ (∀ q, q ∈ getValidMoves p N ↔ 0 ≤ q ≤ N * N - 1 ∧ neighbours N p q)
     ∧ NoDup (getValidMoves p N)
     ∧ (isCorner N p ↔ p ∈ [0; N - 1; N * (N - 1); N * N - 1])
     ∧ (isCorner N p → length (getValidMoves p N) = 2%nat)
     ∧ (isEdge N p → length (getValidMoves p N) = 3%nat)
     ∧ (isInterior N p → length (getValidMoves p N) = 4%nat))
  ∧ getValidMoves 0 3 = [3; 1]
  ∧ getValidMoves 4 3 = [1; 7; 3; 5]
  ∧ getValidMoves 8 3 = [5; 7].
Proof.
  split; [|by repeat split].
  intros N p HN Hp.
  assert (0 < N) as HN0 by lia. assert (0 ≤ p < N * N) as Hp' by lia.
  pose proof (row_range N p HN0 Hp') as Hr.
  destruct (cell_decompose N p HN0) as [_ Hc].
  split_and!.
  - apply getValidMoves_unfold; lia.
  - intros q. rewrite getValidMoves_elem by done.
    split; (intros [? ?]; split; [lia | done]).
  - by apply getValidMoves_NoDup.
  - by apply isCorner_cells.
  - intros [Hrow Hcol]. rewrite getValidMoves_length by lia.
    unfold onRowBorder, onColBorder in *. repeat case_match; lia.
  - intros [Hnc Hni]. rewrite getValidMoves_length by lia.
    unfold isCorner, isInterior, onRowBorder, onColBorder in *.
    repeat case_match; lia.
  - intros [Hrow Hcol]. rewrite getValidMoves_length by lia.
    unfold onRowBorder, onColBorder in *. repeat case_match; lia.
Qed.

Lemma getValidMoves_adjacency_witness :
  length (getValidMoves 5 3) = 3%nat ∧ length (getValidMoves 6 4) = 4%nat.
Proof.
  split.
  - apply (proj1 getValidMoves_adjacency 3 5); [lia | lia |].
    unfold isEdge, isCorner, isInterior, onRowBorder, onColBorder.
    vm_compute. intuition congruence.
  - apply (proj1 getValidMoves_adjacency 4 6); [lia | lia |].
    unfold isInterior, onRowBorder, onColBorder.
    vm_compute. intuition congruence.
Defined.

(** ** Lists of tiles *)

Lemma withCurrentPosition_self t : withCurrentPosition t (currentPosition t) = t.
Proof. by destruct t. Qed.

Lemma NoDup_fmap_elem_inj {A B} (f : A → B) (l : list A) x y :
  NoDup (f <$> l) → x ∈ l → y ∈ l → f x = f y → x = y.
Proof.
  intros Hnd [i Hi]%list_elem_of_lookup [j Hj]%list_elem_of_lookup Hf.
  assert (i = j) as ->; [|congruence].
  apply (NoDup_lookup (f <$> l) i j (f x)); [done|..];
    rewrite list_lookup_fmap; [rewrite Hi | rewrite Hj]; simpl; congruence.
Qed.

Lemma list_find_NoDup_fmap {A B} (f : A → B) (l : list A) i x
    `{∀ y, Decision (f y = f x)} :
  NoDup (f <$> l) → l !! i = Some x →
  list_find (λ y, f y = f x) l = Some (i, x).
Proof.
  intros Hnd Hi. apply list_find_Some. split_and!; [done..|].
  intros j y Hj Hlt E.
  assert (j = i); [|lia].
  apply (NoDup_lookup (f <$> l) j i (f x)); [done|..];
    rewrite list_lookup_fmap; [rewrite Hj | rewrite Hi]; simpl; congruence.
Qed.

Lemma cells_NoDup N : NoDup (cells N).
Proof.
  unfold cells. apply NoDup_fmap_2; [apply _ | apply NoDup_seq].
Qed.

Lemma elem_of_cells N c : c ∈ cells N ↔ 0 ≤ c < N * N.
Proof.
  unfold cells, totalTiles. rewrite list_elem_of_fmap. split.
  - intros (i & -> & Hi%elem_of_seq). lia.
  - intros Hc. exists (Z.to_nat c). rewrite elem_of_seq. lia.
Qed.

Lemma cells_length N : length (cells N) = Z.to_nat (N * N).
Proof. unfold cells, totalTiles. by rewrite length_fmap, length_seq. Qed.

(** ** Exchanging two cells *)

Lemma transpose_inj a b : Inj (=) (=) (transpose a b).
Proof. intros x y. unfold transpose. repeat case_decide; congruence. Qed.

Lemma transpose_involutive a b x : transpose a b (transpose a b x) = x.
Proof. unfold transpose. repeat case_decide; congruence. Qed.

Lemma transpose_Permutation a b (l : list Z) :
  NoDup l → a ∈ l → b ∈ l → transpose a b <$> l ≡ₚ l.
Proof.
  intros Hnd Ha Hb. apply NoDup_Permutation;
    [by apply (@NoDup_fmap_2 _ _ _ (transpose_inj a b))|done|].
  assert (∀ x, x ∈ l → transpose a b x ∈ l) as Hin.
  { intros x Hx. unfold transpose. by repeat case_decide. }
  intros x. rewrite list_elem_of_fmap. split.
  - intros (y & -> & Hy). by apply Hin.
  - intros Hx. exists (transpose a b x).
    split; [by rewrite transpose_involutive | by apply Hin].
Qed.

Lemma swapCells_ids a b board : id <$> swapCells a b board = id <$> board.
Proof.
  unfold swapCells. rewrite <- list_fmap_compose. apply list_fmap_ext.
  intros i t _. simpl. by repeat case_decide.
Qed.

Lemma swapCells_positions a b board :
  currentPosition <$> swapCells a b board
  = transpose a b <$> (currentPosition <$> board).
Proof.
  unfold swapCells. rewrite <- !list_fmap_compose. apply list_fmap_ext.
  intros i t _. unfold transpose. simpl. by repeat case_decide.
Qed.

Lemma swapCells_involutive a b board :
  swapCells a b (swapCells a b board) = board.
Proof.
  unfold swapCells. rewrite <- list_fmap_compose.
  rewrite <- (list_fmap_id board) at 2. apply list_fmap_ext.
  intros i [ti tp] _. unfold withCurrentPosition. simpl.
  repeat (case_decide; simpl in * ); congruence.
Qed.

Lemma swapCells_comm a b board : swapCells a b board = swapCells b a board.
Proof.
  unfold swapCells. apply list_fmap_ext.
  intros i [ti tp] _. unfold withCurrentPosition. simpl.
  repeat (case_decide; simpl in * ); congruence.
Qed.

Lemma positionOf_swapCells a b board i :
  positionOf (swapCells a b board) i = transpose a b <$> positionOf board i.
Proof.
  unfold positionOf, find, swapCells. rewrite list_find_fmap.
  rewrite <- !option_fmap_compose.
  erewrite (list_find_ext _ (λ t, id t = i)).
  - destruct (list_find _ board) as [[k t]|]; [|done]. simpl.
    unfold transpose. f_equal. by repeat case_decide.
  - intros t. simpl. by repeat case_decide.
Qed.

(** ** Well-formed boards *)

Lemma initialTiles_ids N : id <$> initialTiles N = cells N.
Proof. unfold initialTiles, cells. by rewrite <- list_fmap_compose. Qed.

Lemma initialTiles_positions N : currentPosition <$> initialTiles N = cells N.
Proof. unfold initialTiles, cells. by rewrite <- list_fmap_compose. Qed.

Lemma initialTiles_wellFormed N : wellFormed N (initialTiles N).
Proof.
  split; [apply initialTiles_ids | by rewrite initialTiles_positions].
Qed.

Lemma wellFormed_positions_NoDup N board :
  wellFormed N board → NoDup (currentPosition <$> board).
Proof. intros [_ Hp]. rewrite Hp. apply cells_NoDup. Qed.

Lemma wellFormed_ids_NoDup N board :
  wellFormed N board → NoDup (id <$> board).
Proof. intros [Hi _]. rewrite Hi. apply cells_NoDup. Qed.

Lemma wellFormed_position_range N board t :
  wellFormed N board → t ∈ board → 0 ≤ currentPosition t < N * N.
Proof.
  intros [_ Hp] Ht. apply elem_of_cells. rewrite <- Hp.
  by apply list_elem_of_fmap_2.
Qed.

Lemma wellFormed_occupied N board c :
  wellFormed N board → 0 ≤ c < N * N →
  ∃ i t, board !! i = Some t ∧ currentPosition t = c.
Proof.
  intros [_ Hp] Hc%elem_of_cells. rewrite <- Hp in Hc.
  apply list_elem_of_fmap in Hc as (t & -> & [i Hi]%list_elem_of_lookup).
  by exists i, t.
Qed.

Lemma wellFormed_swapCells N board a b :
  wellFormed N board → 0 ≤ a < N * N → 0 ≤ b < N * N →
  wellFormed N (swapCells a b board).
Proof.
  intros Hwf Ha Hb. pose proof Hwf as [Hi Hp]. split.
  - by rewrite swapCells_ids.
  - rewrite swapCells_positions, <- Hp at 1.
    apply transpose_Permutation.
    + by eapply wellFormed_positions_NoDup.
    + rewrite Hp. by apply elem_of_cells.
    + rewrite Hp. by apply elem_of_cells.
Qed.

(** The blank tile is on every well-formed board of a non-empty grid. *)
Lemma wellFormed_blank N board :
  N ≠ 0 → wellFormed N board →
  ∃ i blankTile,
    list_find (λ t, id t = blankTileId N) board = Some (i, blankTile) ∧
    id blankTile = blankTileId N ∧ board !! i = Some blankTile.
Proof.
  intros HN Hwf. pose proof Hwf as [Hi _].
  assert (blankTileId N ∈ id <$> board) as Hb.
  { rewrite Hi. apply elem_of_cells. unfold blankTileId, totalTiles. nia. }
  apply list_elem_of_fmap in Hb as (t & Et & [i Hl]%list_elem_of_lookup).
  exists i, t. split_and!; [|done..].
  rewrite Et. apply (list_find_NoDup_fmap id); [|done].
  by eapply wellFormed_ids_NoDup.
Qed.

Lemma wellFormed_positionOf_blank N board :
  N ≠ 0 → wellFormed N board →
  ∃ blankPos, positionOf board (blankTileId N) = Some blankPos ∧
              0 ≤ blankPos < N * N.
Proof.
  intros HN Hwf.
  destruct (wellFormed_blank N board HN Hwf) as (i & b & Hf & _ & Hl).
  exists (currentPosition b). unfold positionOf, find. rewrite Hf. split; [done|].
  eapply wellFormed_position_range; [done|]. by eapply list_elem_of_lookup_2.
Qed.

(** A board on which every tile is at home is the identity board. *)
Lemma everyAtHome_Forall board :
  everyAtHome board = true ↔ Forall (λ t, currentPosition t = id t) board.
Proof.
  unfold everyAtHome. rewrite forallb_forall, Forall_forall.
  split; intros H t Ht.
  - symmetry. apply Z.eqb_eq, H. by apply list_elem_of_In.
  - apply Z.eqb_eq. symmetry. by apply H, list_elem_of_In.
Qed.

Lemma everyAtHome_initialTiles N : everyAtHome (initialTiles N) = true.
Proof.
  apply everyAtHome_Forall. unfold initialTiles.
  apply Forall_fmap, Forall_forall. by intros i _.
Qed.

Lemma wellFormed_everyAtHome N board :
  wellFormed N board → everyAtHome board = true → board = initialTiles N.
Proof.
  intros [Hi _] Hh%everyAtHome_Forall.
  transitivity ((λ i, mkTile i i) <$> (id <$> board)).
  - rewrite <- list_fmap_compose. rewrite <- (list_fmap_id board) at 1.
    apply list_fmap_ext. intros k [ti tp] Hk.
    eapply Forall_lookup_1 in Hh; [|done]. simpl in *. by subst.
  - rewrite Hi. unfold initialTiles, cells. by rewrite <- list_fmap_compose.
Qed.

(** ** One step of the shuffle *)

(** Writing the two tiles found by position is the exchange of two cells. *)
Lemma inserts_swapCells board i j t1 t2 a b :
  NoDup (currentPosition <$> board) →
  board !! i = Some t1 → board !! j = Some t2 →
  currentPosition t1 = a → currentPosition t2 = b → a ≠ b →
  <[j := withCurrentPosition t2 a]> (<[i := withCurrentPosition t1 b]> board)
  = swapCells a b board.
Proof.
  intros Hnd Hi Hj Ha Hb Hab.
  assert (i ≠ j) as Hij by (intros ->; congruence).
  apply list_eq. intros k. unfold swapCells. rewrite list_lookup_fmap.
  destruct (decide (k = j)) as [->|Hkj].
  { rewrite list_lookup_insert_eq
      by (rewrite length_insert; by eapply lookup_lt_Some).
    rewrite Hj. simpl. repeat case_decide; congruence. }
  rewrite list_lookup_insert_ne by done.
  destruct (decide (k = i)) as [->|Hki].
  { rewrite list_lookup_insert_eq by (by eapply lookup_lt_Some).
    rewrite Hi. simpl. repeat case_decide; congruence. }
  rewrite list_lookup_insert_ne by done.
  destruct (board !! k) as [t|] eqn:Hk; [|done]. simpl.
  assert (∀ m tm, board !! m = Some tm →
            currentPosition tm = currentPosition t → m = k) as Huniq.
  { intros m tm Hm E.
    apply (NoDup_lookup _ m k (currentPosition t) Hnd);
      rewrite list_lookup_fmap; [rewrite Hm | rewrite Hk]; simpl; congruence. }
  repeat case_decide; try done.
  - exfalso. apply Hki. symmetry. apply (Huniq i t1); congruence.
  - exfalso. apply Hkj. symmetry. apply (Huniq j t2); congruence.
Qed.

Lemma shuffleStep_swapCells N randomIndex i board blankPos chosen :
  N ≠ 0 → wellFormed N board → 0 ≤ blankPos < N * N → 0 ≤ chosen < N * N →
  getValidMoves blankPos N
    !! randomIndex i (length (getValidMoves blankPos N)) = Some chosen →
  shuffleStep N randomIndex i (board, blankPos)
  = Some (swapCells blankPos chosen board, chosen).
Proof.
  intros HN Hwf Hbp Hc Hidx.
  assert (chosen ≠ blankPos) as Hne.
  { intros ->. eapply getValidMoves_irrefl; [done|].
    by eapply list_elem_of_lookup_2. }
  pose proof (wellFormed_positions_NoDup N board Hwf) as Hnd.
  destruct (wellFormed_occupied N board blankPos Hwf Hbp) as (i1 & t1 & H1 & E1).
  destruct (wellFormed_occupied N board chosen Hwf Hc) as (i2 & t2 & H2 & E2).
  unfold shuffleStep. rewrite Hidx. simpl. unfold findIndex.
  subst blankPos chosen.
  rewrite (list_find_NoDup_fmap currentPosition board i1 t1) by done.
  rewrite (list_find_NoDup_fmap currentPosition board i2 t2) by done. simpl.
  unfold assignCurrentPosition. rewrite H1. simpl.
  assert (i1 ≠ i2) as Hi by (intros ->; congruence).
  rewrite list_lookup_insert_ne by done. rewrite H2. simpl.
  do 2 f_equal. by apply inserts_swapCells.
Qed.

Lemma positionOf_Some board i p :
  positionOf board i = Some p ↔
  ∃ k t, list_find (λ t, id t = i) board = Some (k, t) ∧ currentPosition t = p.
Proof.
  unfold positionOf, find. destruct (list_find _ board) as [[k t]|]; simpl.
  - split; [intros [= <-]; by exists k, t | intros (? & ? & [= <- <-] & <-); done].
  - split; [done | by intros (? & ? & ? & _)].
Qed.

Lemma positionOf_range N board i p :
  wellFormed N board → positionOf board i = Some p → 0 ≤ p < N * N.
Proof.
  intros Hwf (k & t & (Hl & _ & _)%list_find_Some & <-)%positionOf_Some.
  eapply wellFormed_position_range; [done|]. by eapply list_elem_of_lookup_2.
Qed.

(** ** Legal sliding moves *)

Lemma slide_wellFormed N board board' :
  0 < N → slide N board board' → wellFormed N board'.
Proof.
  intros HN (Hwf & bp & c & Hbp & Hc & ->).
  pose proof (positionOf_range _ _ _ _ Hwf Hbp) as Hr.
  apply wellFormed_swapCells; [done..|].
  apply getValidMoves_sym in Hc; [tauto | lia | done].
Qed.

(** Every legal move can be taken back by a legal move. *)
Lemma slide_sym N board board' :
  0 < N → slide N board board' → slide N board' board.
Proof.
  intros HN Hs. pose proof (slide_wellFormed _ _ _ HN Hs) as Hwf'.
  destruct Hs as (Hwf & bp & c & Hbp & Hc & ->).
  pose proof (positionOf_range _ _ _ _ Hwf Hbp) as Hr.
  split; [done|]. exists c, bp. split_and!.
  - rewrite positionOf_swapCells, Hbp. simpl. unfold transpose.
    by rewrite decide_True.
  - apply getValidMoves_sym in Hc; [tauto | lia | done].
  - by rewrite (swapCells_comm c bp), swapCells_involutive.
Qed.

Lemma slide_rtc_sym N board board' :
  0 < N → rtc (slide N) board board' → rtc (slide N) board' board.
Proof.
  intros HN Hr. induction Hr as [|x y z Hxy _ IH]; [done|].
  eapply rtc_r; [done|]. by apply slide_sym.
Qed.

(** ** The shuffle loop *)

Lemma shuffleLoop_slides N randomIndex :
  2 ≤ N → validRandom randomIndex →
  ∀ n k board blankPos,
    wellFormed N board →
    positionOf board (blankTileId N) = Some blankPos →
    ∃ board' blankPos',
      shuffleLoop N randomIndex n k (board, blankPos) = Some (board', blankPos') ∧
      wellFormed N board' ∧
      positionOf board' (blankTileId N) = Some blankPos' ∧
      rtc (slide N) board board' ∧
      (shuffleTrace N randomIndex k board blankPos →
       shuffleTrace N randomIndex (k + n) board' blankPos').
Proof.
  intros HN Hrnd n. induction n as [|n IH]; intros k board bp Hwf Hbp.
  { exists board, bp. split_and!; try done. by rewrite Nat.add_0_r. }
  pose proof (positionOf_range _ _ _ _ Hwf Hbp) as Hr.
  pose proof (getValidMoves_nonempty N bp HN Hr) as Hlen.
  destruct (lookup_lt_is_Some_2 (getValidMoves bp N)
              (randomIndex k (length (getValidMoves bp N))))
    as [c Hc]; [by apply Hrnd|].
  assert (c ∈ getValidMoves bp N) as Hin by (by eapply list_elem_of_lookup_2).
  assert (0 ≤ c < N * N) as Hcr.
  { apply getValidMoves_sym in Hin; [tauto | lia | done]. }
  assert (slide N board (swapCells bp c board)) as Hs.
  { split; [done|]. by exists bp, c. }
  destruct (IH (S k) (swapCells bp c board) c) as (B' & bp' & Hl & Hwf' & Hbp' & Hp & Ht).
  { apply wellFormed_swapCells; done. }
  { rewrite positionOf_swapCells, Hbp. simpl. unfold transpose.
    by rewrite decide_True. }
  exists B', bp'. split_and!; [|done|done|by eapply rtc_l|].
  - cbn [shuffleLoop].
    rewrite (shuffleStep_swapCells N randomIndex k board bp c) by (done || lia).
    exact Hl.
  - intros Htr. replace (k + S n)%nat with (S k + n)%nat by lia.
    apply Ht. by apply trace_step.
Qed.

(** ** A click next to the blank *)

Lemma moveTile_swapCells N board clickedTile blankTile :
  wellFormed N board → clickedTile ∈ board → blankTile ∈ board →
  id blankTile = blankTileId N →
  moveTile N clickedTile blankTile <$> board
  = swapCells (currentPosition blankTile) (currentPosition clickedTile) board.
Proof.
  intros Hwf Hc Hb Eb. unfold swapCells. apply list_fmap_ext.
  intros k t Ht%list_elem_of_lookup_2.
  pose proof (wellFormed_ids_NoDup _ _ Hwf) as Hni.
  pose proof (wellFormed_positions_NoDup _ _ Hwf) as Hnp.
  pose proof (NoDup_fmap_elem_inj id board t clickedTile Hni Ht Hc) as F1.
  pose proof (NoDup_fmap_elem_inj id board t blankTile Hni Ht Hb) as F2.
  pose proof (NoDup_fmap_elem_inj currentPosition board t blankTile Hnp Ht Hb) as F3.
  pose proof (NoDup_fmap_elem_inj currentPosition board t clickedTile Hnp Ht Hc) as F4.
  unfold moveTile.
  destruct (Z.eqb_spec (id t) (id clickedTile)) as [E1|E1];
    [|destruct (Z.eqb_spec (id t) (blankTileId N)) as [E2|E2]];
    repeat case_decide;
    try specialize (F1 ltac:(congruence)); try specialize (F2 ltac:(congruence));
    try specialize (F3 ltac:(congruence)); try specialize (F4 ltac:(congruence));
    subst; first [done | congruence].
Qed.

(** ** The click handler, case by case *)

Lemma checkIfSolved_setTiles st newTiles :
  isSolved st = false →
  checkIfSolved (setTiles st newTiles) newTiles
  = {| tiles := newTiles; isSolved := everyAtHome newTiles |}.
Proof.
  intros Hs. unfold checkIfSolved, setTiles, setIsSolved. simpl.
  rewrite Hs. by destruct (everyAtHome newTiles).
Qed.

Lemma handleTileClick_locked N st clickedTile :
  isSolved st = true → handleTileClick N st clickedTile = Some st.
Proof. intros Hs. unfold handleTileClick. by rewrite Hs. Qed.

Lemma handleTileClick_rejected N st clickedTile blankTile :
  find (λ t, id t = blankTileId N) (tiles st) = Some blankTile →
  currentPosition clickedTile ∉ getValidMoves (currentPosition blankTile) N →
  handleTileClick N st clickedTile = Some st.
Proof.
  intros Hb Hn. unfold handleTileClick. destruct (isSolved st); [done|].
  rewrite Hb. simpl. unfold includes. by rewrite bool_decide_false.
Qed.

Lemma handleTileClick_accepted N st clickedTile blankTile :
  isSolved st = false →
  find (λ t, id t = blankTileId N) (tiles st) = Some blankTile →
  currentPosition clickedTile ∈ getValidMoves (currentPosition blankTile) N →
  handleTileClick N st clickedTile
  = Some {| tiles := moveTile N clickedTile blankTile <$> tiles st;
            isSolved := everyAtHome (moveTile N clickedTile blankTile <$> tiles st) |}.
Proof.
  intros Hs Hb Hin. unfold handleTileClick. rewrite Hs, Hb. simpl.
  unfold includes. rewrite bool_decide_true by done.
  by rewrite checkIfSolved_setTiles.
Qed.

Lemma find_blank_wellFormed N board :
  0 < N → wellFormed N board →
  ∃ blankTile,
    find (λ t, id t = blankTileId N) board = Some blankTile ∧
    blankTile ∈ board ∧ id blankTile = blankTileId N ∧
    positionOf board (blankTileId N) = Some (currentPosition blankTile).
Proof.
  intros HN Hwf.
  destruct (wellFormed_blank N board ltac:(lia) Hwf) as (i & b & Hf & Eb & Hl).
  exists b. unfold positionOf, find. rewrite Hf. split_and!; try done.
  by eapply list_elem_of_lookup_2.
Qed.

(** An accepted click on a well-formed board is a legal sliding move. *)
Lemma handleTileClick_slide N st clickedTile blankTile :
  0 < N → wellFormed N (tiles st) → isSolved st = false →
  clickedTile ∈ tiles st →
  find (λ t, id t = blankTileId N) (tiles st) = Some blankTile →
  currentPosition clickedTile ∈ getValidMoves (currentPosition blankTile) N →
  let board' := swapCells (currentPosition blankTile)
                  (currentPosition clickedTile) (tiles st) in
  handleTileClick N st clickedTile
  = Some {| tiles := board'; isSolved := everyAtHome board' |} ∧
  slide N (tiles st) board'.
Proof.
  intros HN Hwf Hs Hc Hb Hin board'.
  destruct (find_blank_wellFormed N (tiles st) HN Hwf) as (b & Hb' & Hbin & Eb & Hp).
  assert (b = blankTile) as -> by congruence.
  split.
  - rewrite (handleTileClick_accepted N st clickedTile blankTile) by done.
    by rewrite (moveTile_swapCells N).
  - split; [done|]. by exists (currentPosition blankTile), (currentPosition clickedTile).
Qed.

(** ** What holds in every state of a session *)

Lemma positionOf_initialTiles N :
  0 < N → positionOf (initialTiles N) (blankTileId N) = Some (blankTileId N).
Proof.
  intros HN.
  destruct (find_blank_wellFormed N _ HN (initialTiles_wellFormed N))
    as (b & _ & Hin & Eb & ->).
  pose proof (everyAtHome_initialTiles N) as Hh%everyAtHome_Forall.
  rewrite Forall_forall in Hh. rewrite (Hh b Hin). by rewrite Eb.
Qed.

(** The shuffle always returns, and what it returns. *)
Lemma shufflePuzzle_slides N randomIndex :
  2 ≤ N → validRandom randomIndex →
  ∃ board blankPos,
    shufflePuzzle N randomIndex (initialTiles N) = Some board ∧
    wellFormed N board ∧
    positionOf board (blankTileId N) = Some blankPos ∧
    rtc (slide N) (initialTiles N) board ∧
    shuffleTrace N randomIndex 100 board blankPos.
Proof.
  intros HN Hrnd.
  destruct (shuffleLoop_slides N randomIndex HN Hrnd 100 0
              (initialTiles N) (blankTileId N))
    as (B & bp & Hl & Hwf & Hbp & Hp & Ht).
  { apply initialTiles_wellFormed. }
  { apply positionOf_initialTiles. lia. }
  exists B, bp. unfold shufflePuzzle. rewrite Hl. split_and!; try done.
  apply Ht. constructor.
Qed.

Lemma initializePuzzle_shuffled N randomIndex st0 :
  2 ≤ N → validRandom randomIndex →
  ∃ board blankPos,
    initializePuzzle N randomIndex st0
      = Some {| tiles := board; isSolved := false |} ∧
    wellFormed N board ∧
    positionOf board (blankTileId N) = Some blankPos ∧
    rtc (slide N) (initialTiles N) board ∧
    shuffleTrace N randomIndex 100 board blankPos.
Proof.
  intros HN Hrnd.
  destruct (shufflePuzzle_slides N randomIndex HN Hrnd)
    as (B & bp & Hs & Hrest).
  exists B, bp. unfold initializePuzzle. rewrite Hs. by split.
Qed.

Lemma handleTileClick_invariant N st clickedTile st' :
  0 < N → wellFormed N (tiles st) →
  (isSolved st = true → everyAtHome (tiles st) = true) →
  clickedTile ∈ tiles st →
  handleTileClick N st clickedTile = Some st' →
  wellFormed N (tiles st') ∧
  (isSolved st' = true → everyAtHome (tiles st') = true).
Proof.
  intros HN Hwf Hinv Hc Hh.
  destruct (isSolved st) eqn:Hs.
  { rewrite handleTileClick_locked in Hh by done. simplify_eq.
    split; [done|]. intros _. by apply Hinv. }
  destruct (find_blank_wellFormed N (tiles st) HN Hwf) as (b & Hb & Hbin & Eb & Hp).
  destruct (decide (currentPosition clickedTile
                      ∈ getValidMoves (currentPosition b) N)) as [Hin|Hnin].
  - destruct (handleTileClick_slide N st clickedTile b) as [Hr Hsl]; try done.
    rewrite Hr in Hh. simplify_eq. simpl. split; [|done].
    eapply slide_wellFormed; [|done]. lia.
  - rewrite (handleTileClick_rejected N st clickedTile b) in Hh by done.
    simplify_eq. split; [done|]. by rewrite Hs.
Qed.

Lemma reachable_invariant N st :
  2 ≤ N → reachable N st →
  wellFormed N (tiles st) ∧ (isSolved st = true → everyAtHome (tiles st) = true).
Proof.
  intros HN Hr. induction Hr as [rnd st0 st Hrnd Hi|st c st' _ IH Hc Hh].
  - destruct (initializePuzzle_shuffled N rnd st0 HN Hrnd)
      as (B & bp & Hs & Hwf & _).
    rewrite Hs in Hi. simplify_eq. by split.
  - destruct IH as [Hwf Hinv].
    eapply handleTileClick_invariant; [| done..]. lia.
Qed.

Lemma shuffleTrace_invariant N randomIndex k board blankPos :
  0 < N → shuffleTrace N randomIndex k board blankPos →
  wellFormed N board ∧ positionOf board (blankTileId N) = Some blankPos.
Proof.
  intros HN Ht. induction Ht as [|k B bp c _ [Hwf Hbp] Hc].
  - split; [apply initialTiles_wellFormed | by apply positionOf_initialTiles].
  - pose proof (positionOf_range _ _ _ _ Hwf Hbp) as Hr.
    apply list_elem_of_lookup_2, getValidMoves_sym in Hc as [Hcr _]; [|done..].
    split; [by apply wellFormed_swapCells|].
    rewrite positionOf_swapCells, Hbp. simpl. unfold transpose.
    by rewrite decide_True.
Qed.

Lemma initialTiles_lookup N i :
  0 ≤ i < N * N →
  initialTiles N !! Z.to_nat i = Some {| id := i; currentPosition := i |}.
Proof.
  intros Hi. unfold initialTiles, totalTiles. rewrite list_lookup_fmap.
  rewrite lookup_seq_lt by lia. simpl. by rewrite Z2Nat.id by lia.
Qed.

Lemma validRandom_roundRobin : validRandom roundRobin.
Proof. intros i len Hlen. unfold roundRobin. apply Nat.mod_upper_bound. lia. Qed.

Lemma validRandom_backAndForth : validRandom backAndForth.
Proof. intros i len Hlen. unfold backAndForth. apply Nat.mod_upper_bound. lia. Qed.

(** ** The shuffle generator *)

(** C9. [initializePuzzle] builds the identity board of [N²] tiles, tile [i]
    with identity [i] on cell [i]; it returns the board that exactly 100
    random legal moves make of it, the blank tracked from its home cell
    [N²-1]: each move picks one of the valid moves from the tracked cell,
    exchanges the blank with the tile on the picked cell and moves the
    tracker there; and the solved flag of the state it leaves is [false]. *)
Theorem initializePuzzle_shuffles_identity N randomIndex st0 :
  2 ≤ N → validRandom randomIndex →
  length (initialTiles N) = Z.to_nat (N * N) ∧
  (∀ i, 0 ≤ i < N * N →
        initialTiles N !! Z.to_nat i = Some {| id := i; currentPosition := i |}) ∧
  blankTileId N = N * N - 1 ∧
  (∀ k board blankPos,
     shuffleTrace N randomIndex k board blankPos →
     wellFormed N board ∧ positionOf board (blankTileId N) = Some blankPos) ∧
  ∃ board blankPos,
    shufflePuzzle N randomIndex (initialTiles N) = Some board ∧
    initializePuzzle N randomIndex st0
      = Some {| tiles := board; isSolved := false |} ∧
    shuffleTrace N randomIndex 100 board blankPos.
Proof.
  intros HN Hrnd. split_and!.
  - unfold initialTiles, totalTiles. by rewrite length_fmap, length_seq.
  - apply initialTiles_lookup.
  - reflexivity.
  - intros k B bp. apply shuffleTrace_invariant. lia.
  - destruct (shufflePuzzle_slides N randomIndex HN Hrnd)
      as (B & bp & Hs & _ & _ & _ & Ht).
    exists B, bp. split_and!; [done| |done].
    unfold initializePuzzle. by rewrite Hs.
Qed.

Lemma initializePuzzle_shuffles_identity_witness :
  ∃ board blankPos,
    shufflePuzzle 3 roundRobin (initialTiles 3) = Some board ∧
    initializePuzzle 3 roundRobin {| tiles := []; isSolved := true |}
      = Some {| tiles := board; isSolved := false |} ∧
    shuffleTrace 3 roundRobin 100 board blankPos.
Proof.
  apply (initializePuzzle_shuffles_identity 3 roundRobin
           {| tiles := []; isSolved := true |}).
  - lia.
  - exact validRandom_roundRobin.
Defined.

(** ** The permutation invariant *)

Lemma filter_NoDup_fmap_length {A} (f : A → Z) (l : list A) c :
  NoDup (f <$> l) →
  length (filter (λ y, f y = c) l)
  = if decide (c ∈ f <$> l) then 1%nat else 0%nat.
Proof.
  induction l as [|a l IH]; intros Hnd.
  { reflexivity. }
  rewrite fmap_cons in Hnd. apply NoDup_cons in Hnd as [Hni Hnd].
  rewrite filter_cons, fmap_cons. specialize (IH Hnd).
  destruct (decide (f a = c)) as [E|E]; simpl; rewrite IH;
    destruct (decide (c ∈ f <$> l)) as [Hin|Hnin];
    destruct (decide (c ∈ _ :: _)) as [Hin'|Hnin'];
    try done; exfalso.
  - apply Hni. by rewrite E.
  - apply Hni. by rewrite E.
  - apply Hnin', elem_of_cons. left. congruence.
  - apply Hnin', elem_of_cons. by right.
  - apply elem_of_cons in Hin' as [?|?]; [congruence | done].
Qed.

(** C2. For every grid size [N >= 2]: [initializePuzzle] returns a state,
    and in every state of a session (after [initializePuzzle] and after
    every click, accepted or not) the [currentPosition] values of the [N²]
    tiles are a permutation of the cells [0 .. N²-1]: each cell is the
    [currentPosition] of exactly one tile.  A click in such a state always
    returns a state. *)
Theorem currentPositions_permutation N :
  2 ≤ N →
  (∀ randomIndex st0, validRandom randomIndex →
     ∃ st, initializePuzzle N randomIndex st0 = Some st ∧ reachable N st) ∧
  (∀ st, reachable N st →
     length (tiles st) = Z.to_nat (N * N) ∧
     currentPosition <$> tiles st ≡ₚ cells N ∧
     (∀ c, 0 ≤ c ≤ N * N - 1 →
           length (filter (λ t, currentPosition t = c) (tiles st)) = 1%nat) ∧
     (∀ clickedTile, ∃ st', handleTileClick N st clickedTile = Some st')).
Proof.
  intros HN. split.
  - intros rnd st0 Hrnd.
    destruct (initializePuzzle_shuffled N rnd st0 HN Hrnd) as (B & bp & Hi & _).
    eexists. split; [done|]. by eapply reachable_init.
  - intros st Hr. destruct (reachable_invariant N st HN Hr) as [Hwf Hinv].
    pose proof Hwf as [Hid Hp]. split_and!.
    + rewrite <- (length_fmap currentPosition), Hp. apply cells_length.
    + done.
    + intros c Hc. rewrite filter_NoDup_fmap_length
        by (by eapply wellFormed_positions_NoDup).
      rewrite decide_True; [done|]. rewrite Hp. apply elem_of_cells. lia.
    + intros c. destruct (isSolved st) eqn:Hs.
      { exists st. by apply handleTileClick_locked. }
      destruct (find_blank_wellFormed N (tiles st) ltac:(lia) Hwf)
        as (b & Hb & _).
      unfold handleTileClick. rewrite Hs, Hb. simpl. case_match; by eexists.
Qed.

Lemma currentPositions_permutation_witness :
  currentPosition <$>
    [mkTile 0 0; mkTile 1 1; mkTile 2 2; mkTile 3 3; mkTile 4 4;
     mkTile 5 8; mkTile 6 6; mkTile 7 7; mkTile 8 5]
    ≡ₚ cells 3.
Proof.
  assert (reachable 3
            {| tiles := [mkTile 0 0; mkTile 1 1; mkTile 2 2; mkTile 3 3;
                         mkTile 4 4; mkTile 5 8; mkTile 6 6; mkTile 7 7;
                         mkTile 8 5];
               isSolved := false |}) as Hr.
  { eapply (reachable_click 3 {| tiles := initialTiles 3; isSolved := false |}
              (mkTile 5 5)).
    - eapply (reachable_init 3 backAndForth {| tiles := []; isSolved := false |}).
      + exact validRandom_backAndForth.
      + vm_compute. reflexivity.
    - vm_compute. apply list_elem_of_In. simpl. tauto.
    - vm_compute. reflexivity. }
  exact (proj1 (proj2 (proj2 (currentPositions_permutation 3 ltac:(lia)) _ Hr))).
Defined.

(** ** Solvability *)

Lemma positionOf_elem N board t :
  wellFormed N board → t ∈ board →
  positionOf board (id t) = Some (currentPosition t).
Proof.
  intros Hwf [i Hi]%list_elem_of_lookup. unfold positionOf, find.
  rewrite (list_find_NoDup_fmap id board i t); [done| |done].
  by eapply wellFormed_ids_NoDup.
Qed.

(** A path of legal sliding moves to the identity board can be played as
    clicks; it is cut where the identity board comes up first, since the
    click that brings it up locks the puzzle. *)
Lemma slides_playLegal N board :
  0 < N → rtc (slide N) board (initialTiles N) →
  ∀ st, tiles st = board → isSolved st = false →
  ∃ clicks st', playLegal N st clicks = Some st' ∧ tiles st' = initialTiles N.
Proof.
  intros HN. revert board.
  apply (rtc_ind_l (λ B, ∀ st, tiles st = B → isSolved st = false →
           ∃ clicks st', playLegal N st clicks = Some st' ∧
                         tiles st' = initialTiles N)).
  { intros st Ht Hf. by exists [], st. }
  intros B B1 Hs Hr IH st Ht Hf.
  pose proof (slide_wellFormed N B B1 HN Hs) as Hwf1.
  destruct Hs as (Hwf & bp & c & Hbp & Hc & ->). subst B.
  pose proof (positionOf_range _ _ _ _ Hwf Hbp) as Hbr.
  destruct (getValidMoves_sym N bp c HN Hbr Hc) as [Hcr _].
  destruct (wellFormed_occupied N (tiles st) c Hwf Hcr) as (i & t & Hi & Et).
  apply list_elem_of_lookup_2 in Hi.
  destruct (find_blank_wellFormed N (tiles st) HN Hwf)
    as (b & Hb & Hbin & Eb & Hp).
  assert (currentPosition b = bp) as Ebp by congruence.
  destruct (handleTileClick_slide N st t b) as [Hh _]; try done.
  { by rewrite Ebp, Et. }
  rewrite Ebp, Et in Hh.
  assert (legalClick N st t = true) as Hl.
  { unfold legalClick. rewrite Hf, Hb, bool_decide_true by done. simpl.
    unfold includes. apply bool_decide_true. by rewrite Ebp, Et. }
  destruct (everyAtHome (swapCells bp c (tiles st))) eqn:Hhome.
  - exists [t]. eexists. simpl. rewrite Hl, Hh. simpl. split; [done|].
    simpl. by apply wellFormed_everyAtHome.
  - destruct (IH {| tiles := swapCells bp c (tiles st); isSolved := false |})
      as (clicks & st' & Hplay & Hfin); [done..|].
    exists (t :: clicks), st'. simpl. rewrite Hl, Hh. simpl. by split.
Qed.

(** C1. Every board that [initializePuzzle] produces can be brought back to
    the identity arrangement by a finite sequence of clicks, each of them a
    legal move: a click on a displayed tile whose cell is among the valid
    moves from the blank's current cell, in a puzzle that is not locked. *)
Theorem shuffled_board_solvable N randomIndex st0 st :
  2 ≤ N → validRandom randomIndex →
  initializePuzzle N randomIndex st0 = Some st →
  ∃ clicks st',
    playLegal N st clicks = Some st' ∧
    tiles st' = initialTiles N ∧
    Forall (λ t, currentPosition t = id t) (tiles st').
Proof.
  intros HN Hrnd Hi.
  destruct (initializePuzzle_shuffled N randomIndex st0 HN Hrnd)
    as (B & bp & Hi' & Hwf & _ & Hp & _).
  rewrite Hi' in Hi. simplify_eq.
  destruct (slides_playLegal N B ltac:(lia)
              (slide_rtc_sym N _ _ ltac:(lia) Hp)
              {| tiles := B; isSolved := false |})
    as (clicks & st' & Hplay & Hfin); [done..|].
  exists clicks, st'. split_and!; [done..|].
  rewrite Hfin. apply everyAtHome_Forall, everyAtHome_initialTiles.
Qed.

Lemma shuffled_board_solvable_witness :
  ∃ clicks st',
    playLegal 3
      {| tiles := [mkTile 0 4; mkTile 1 3; mkTile 2 2; mkTile 3 1; mkTile 4 5;
                   mkTile 5 8; mkTile 6 6; mkTile 7 7; mkTile 8 0];
         isSolved := false |} clicks = Some st' ∧
    tiles st' = initialTiles 3 ∧
    Forall (λ t, currentPosition t = id t) (tiles st').
Proof.
  apply (shuffled_board_solvable 3 roundRobin {| tiles := []; isSolved := false |}).
  - lia.
  - exact validRandom_roundRobin.
  - vm_compute. reflexivity.
Defined.

(** ** Accepted clicks *)

Lemma swapCells_lookup_other board a b i t :
  board !! i = Some t →
  currentPosition t ≠ a → currentPosition t ≠ b →
  swapCells a b board !! i = Some t.
Proof.
  intros Hi Ha Hb. unfold swapCells. rewrite list_lookup_fmap, Hi. simpl.
  by rewrite !decide_False.
Qed.

(** C4. In a state of a session whose board is not solved, a click on a
    displayed tile whose cell is among the valid moves from the blank's cell
    is an exact swap: afterwards the clicked tile is on the blank's former
    cell and the blank on the clicked tile's former cell; the identities of
    all tiles are as before, and every other tile is unchanged. *)
Theorem handleTileClick_exact_swap N st clickedTile blankTile :
  2 ≤ N → reachable N st → everyAtHome (tiles st) = false →
  clickedTile ∈ tiles st →
  find (λ t, id t = blankTileId N) (tiles st) = Some blankTile →
  currentPosition clickedTile ∈ getValidMoves (currentPosition blankTile) N →
  ∃ st',
    handleTileClick N st clickedTile = Some st' ∧
    positionOf (tiles st') (id clickedTile) = Some (currentPosition blankTile) ∧
    positionOf (tiles st') (blankTileId N) = Some (currentPosition clickedTile) ∧
    id <$> tiles st' = id <$> tiles st ∧
    (∀ i t, tiles st !! i = Some t →
            id t ≠ id clickedTile → id t ≠ blankTileId N →
            tiles st' !! i = Some t) ∧
    (∀ j, j ≠ id clickedTile → j ≠ blankTileId N →
          positionOf (tiles st') j = positionOf (tiles st) j).
Proof.
  intros HN Hr Hu Hc Hb Hin.
  destruct (reachable_invariant N st HN Hr) as [Hwf Hinv].
  assert (isSolved st = false) as Hs.
  { destruct (isSolved st); [|done]. rewrite Hinv in Hu; done. }
  assert (0 < N) as HN0 by lia.
  destruct (find_blank_wellFormed N (tiles st) HN0 Hwf)
    as (b & Hb' & Hbin & Eb & Hp).
  assert (b = blankTile) as -> by congruence.
  destruct (handleTileClick_slide N st clickedTile blankTile) as [Hh _];
    try done.
  pose proof (wellFormed_ids_NoDup _ _ Hwf) as Hni.
  pose proof (wellFormed_positions_NoDup _ _ Hwf) as Hnp.
  eexists. split; [exact Hh|]. simpl. split_and!.
  - rewrite positionOf_swapCells, (positionOf_elem N) by done. simpl.
    f_equal. unfold transpose. repeat case_decide; congruence.
  - rewrite positionOf_swapCells, Hp. simpl.
    f_equal. unfold transpose. repeat case_decide; congruence.
  - apply swapCells_ids.
  - intros i t Hi Hn1 Hn2. eapply swapCells_lookup_other; [done..| |].
    + intros E. apply Hn2. rewrite <- Eb. f_equal.
      eapply (NoDup_fmap_elem_inj currentPosition); [done| |done..].
      by eapply list_elem_of_lookup_2.
    + intros E. apply Hn1. f_equal.
      eapply (NoDup_fmap_elem_inj currentPosition); [done| |done..].
      by eapply list_elem_of_lookup_2.
  - intros j Hn1 Hn2. rewrite positionOf_swapCells.
    destruct (positionOf (tiles st) j) as [p|] eqn:Hj; [|done]. simpl. f_equal.
    apply positionOf_Some in Hj as (k & t & (Hk & Et & _)%list_find_Some & <-).
    apply list_elem_of_lookup_2 in Hk.
    unfold transpose. repeat case_decide; try done; exfalso.
    + apply Hn2. rewrite <- Et, <- Eb. f_equal.
      by eapply (NoDup_fmap_elem_inj currentPosition).
    + apply Hn1. rewrite <- Et. f_equal.
      by eapply (NoDup_fmap_elem_inj currentPosition).
Qed.

Lemma reachable_identity3 :
  reachable 3 {| tiles := initialTiles 3; isSolved := false |}.
Proof.
  eapply (reachable_init 3 backAndForth {| tiles := []; isSolved := false |}).
  - exact validRandom_backAndForth.
  - vm_compute. reflexivity.
Defined.

Lemma reachable_blankMovedUp :
  reachable 3 {| tiles := blankMovedUp; isSolved := false |}.
Proof.
  eapply (reachable_click 3 _ (mkTile 5 5)).
  - exact reachable_identity3.
  - vm_compute. apply list_elem_of_In. simpl. tauto.
  - vm_compute. reflexivity.
Defined.

Lemma reachable_blankInCentre :
  reachable 3 {| tiles := blankInCentre; isSolved := false |}.
Proof.
  eapply (reachable_click 3 _ (mkTile 4 4)).
  - exact reachable_blankMovedUp.
  - vm_compute. apply list_elem_of_In. simpl. tauto.
  - vm_compute. reflexivity.
Defined.

Lemma reachable_lockedIdentity3 :
  reachable 3 {| tiles := initialTiles 3; isSolved := true |}.
Proof.
  eapply (reachable_click 3 _ (mkTile 5 8)).
  - exact reachable_blankMovedUp.
  - vm_compute. apply list_elem_of_In. simpl. tauto.
  - vm_compute. reflexivity.
Defined.

Lemma handleTileClick_exact_swap_witness :
  ∃ st',
    handleTileClick 3 {| tiles := blankInCentre; isSolved := false |} (mkTile 1 1)
      = Some st' ∧
    positionOf (tiles st') 1 = Some 4 ∧
    positionOf (tiles st') (blankTileId 3) = Some 1 ∧
    id <$> tiles st' = id <$> blankInCentre ∧
    (∀ i t, blankInCentre !! i = Some t →
            id t ≠ 1 → id t ≠ blankTileId 3 → tiles st' !! i = Some t) ∧
    (∀ j, j ≠ 1 → j ≠ blankTileId 3 →
          positionOf (tiles st') j = positionOf blankInCentre j).
Proof.
  apply (handleTileClick_exact_swap 3
           {| tiles := blankInCentre; isSolved := false |}
           (mkTile 1 1) (mkTile 8 4)).
  - lia.
  - exact reachable_blankInCentre.
  - reflexivity.
  - apply list_elem_of_In. simpl. tauto.
  - reflexivity.
  - apply list_elem_of_In. simpl. tauto.
Defined.

(** ** Rejected clicks *)

(** C5, as the code has it.  A click on a tile whose cell is not among the
    valid moves from the blank's cell is a no-op, not an error: the board
    and the solved flag are left as they were; so the solved flag returned
    is [false] whenever it was [false] before the click. *)
Theorem handleTileClick_not_adjacent N st clickedTile blankTile :
  find (λ t, id t = blankTileId N) (tiles st) = Some blankTile →
  currentPosition clickedTile ∉ getValidMoves (currentPosition blankTile) N →
  handleTileClick N st clickedTile = Some st ∧
  attemptMove N st clickedTile = Some (tiles st, isSolved st) ∧
  (isSolved st = false →
   attemptMove N st clickedTile = Some (tiles st, false)).
Proof.
  intros Hb Hn.
  assert (handleTileClick N st clickedTile = Some st) as Hh
    by (by eapply handleTileClick_rejected).
  unfold attemptMove. rewrite Hh. split_and!; try done.
  intros Hs. simpl. by rewrite Hs.
Qed.

Lemma handleTileClick_not_adjacent_witness :
  handleTileClick 3 {| tiles := blankInCentre; isSolved := false |} (mkTile 0 0)
    = Some {| tiles := blankInCentre; isSolved := false |} ∧
  attemptMove 3 {| tiles := blankInCentre; isSolved := false |} (mkTile 0 0)
    = Some (blankInCentre, false) ∧
  (false = false →
   attemptMove 3 {| tiles := blankInCentre; isSolved := false |} (mkTile 0 0)
     = Some (blankInCentre, false)).
Proof.
  apply (handleTileClick_not_adjacent 3
           {| tiles := blankInCentre; isSolved := false |}
           (mkTile 0 0) (mkTile 8 4)).
  - reflexivity.
  - vm_compute. intros H. apply list_elem_of_In in H. simpl in H. intuition lia.
Defined.

(** C5 as stated fails in a state of a session: on the solved and locked
    board of the 3x3 grid the blank is on cell 8, tile 0 is on cell 0, which
    is not a valid move from cell 8, and the click on tile 0 returns the
    board unchanged with the solved flag [true], not [false]. *)
Lemma not_adjacent_click_reports_solved :
  reachable 3 {| tiles := initialTiles 3; isSolved := true |} ∧
  mkTile 0 0 ∈ initialTiles 3 ∧
  find (λ t, id t = blankTileId 3) (initialTiles 3) = Some (mkTile 8 8) ∧
  includes (getValidMoves 8 3) 0 = false ∧
  attemptMove 3 {| tiles := initialTiles 3; isSolved := true |} (mkTile 0 0)
    = Some (initialTiles 3, true) ∧
  attemptMove 3 {| tiles := initialTiles 3; isSolved := true |} (mkTile 0 0)
    ≠ Some (initialTiles 3, false).
Proof.
  split_and!.
  - exact reachable_lockedIdentity3.
  - apply list_elem_of_In. simpl. tauto.
  - reflexivity.
  - reflexivity.
  - reflexivity.
  - vm_compute. discriminate.
Qed.

(** ** The lock after solving *)

Lemma playClicks_locked N st clicks :
  isSolved st = true → playClicks N st clicks = Some st.
Proof.
  intros Hs. induction clicks as [|c clicks IH]; [done|].
  simpl. rewrite handleTileClick_locked by done. exact IH.
Qed.

(** C6, as the code has it.  The lock is the solved flag.  Once it is set,
    every click, on any tile, and every sequence of clicks leaves the board
    unchanged and still reports solved; the flag is set by the click that
    changes the board into the identity arrangement (after a click that
    changes the board it is the verdict of the solve detector);
    [initializePuzzle] clears it. *)
Theorem solved_flag_locks N :
  (∀ st, isSolved st = true →
     (∀ clickedTile, handleTileClick N st clickedTile = Some st ∧
                     attemptMove N st clickedTile = Some (tiles st, true)) ∧
     (∀ clicks, playClicks N st clicks = Some st)) ∧
  (∀ st clickedTile st',
     isSolved st = false →
     handleTileClick N st clickedTile = Some st' →
     tiles st' ≠ tiles st →
     isSolved st' = everyAtHome (tiles st')) ∧
  (∀ randomIndex st0 st,
     initializePuzzle N randomIndex st0 = Some st → isSolved st = false).
Proof.
  split_and!.
  - intros st Hs. split.
    + intros c. unfold attemptMove.
      rewrite handleTileClick_locked by done. simpl. by rewrite Hs.
    + intros clicks. by apply playClicks_locked.
  - intros st c st' Hs Hh Hne. unfold handleTileClick in Hh.
    rewrite Hs in Hh.
    destruct (find _ (tiles st)) as [b|]; [|done]. simpl in Hh.
    destruct (includes _ _); [|by simplify_eq].
    rewrite checkIfSolved_setTiles in Hh by done. by simplify_eq.
  - intros rnd st0 st Hi. unfold initializePuzzle in Hi.
    destruct (shufflePuzzle _ _ _); simpl in Hi; [|done].
    by injection Hi as <-.
Qed.

Lemma solved_flag_locks_witness :
  (∀ clickedTile,
     handleTileClick 3 {| tiles := initialTiles 3; isSolved := true |} clickedTile
       = Some {| tiles := initialTiles 3; isSolved := true |} ∧
     attemptMove 3 {| tiles := initialTiles 3; isSolved := true |} clickedTile
       = Some (initialTiles 3, true)) ∧
  isSolved {| tiles := initialTiles 3; isSolved := true |}
    = everyAtHome (initialTiles 3) ∧
  isSolved {| tiles := initialTiles 3; isSolved := false |} = false.
Proof.
  split_and!.
  - apply (proj1 (proj1 (solved_flag_locks 3)
                    {| tiles := initialTiles 3; isSolved := true |} eq_refl)).
  - apply (proj1 (proj2 (solved_flag_locks 3))
             {| tiles := blankMovedUp; isSolved := false |} (mkTile 5 8)).
    + reflexivity.
    + vm_compute. reflexivity.
    + vm_compute. discriminate.
  - apply (proj2 (proj2 (solved_flag_locks 3)) backAndForth
             {| tiles := []; isSolved := true |}).
    vm_compute. reflexivity.
Defined.

(** C6 as stated fails on a board that [initializePuzzle] leaves in the
    identity arrangement (the 100 shuffle moves can undo one another): the
    board is solved, the solved flag is [false], and a click on tile 5, next
    to the blank, moves it and reports not solved. *)
Lemma solved_board_after_initialize_not_locked :
  validRandom backAndForth ∧
  initializePuzzle 3 backAndForth {| tiles := []; isSolved := false |}
    = Some {| tiles := initialTiles 3; isSolved := false |} ∧
  everyAtHome (initialTiles 3) = true ∧
  mkTile 5 5 ∈ initialTiles 3 ∧
  attemptMove 3 {| tiles := initialTiles 3; isSolved := false |} (mkTile 5 5)
    = Some (blankMovedUp, false) ∧
  blankMovedUp ≠ initialTiles 3.
Proof.
  split_and!.
  - exact validRandom_backAndForth.
  - vm_compute. reflexivity.
  - reflexivity.
  - apply list_elem_of_In. simpl. tauto.
  - vm_compute. reflexivity.
  - vm_compute. discriminate.
Qed.

(** ** The solve detector *)

(** C7. The detector [currentTiles.every(tile => tile.id === tile.currentPosition)]
    depends on the board alone: it holds if and only if every tile's
    [currentPosition] equals its [id]; [checkIfSolved] sets the solved flag
    when it holds and changes nothing else; and the identity board of any
    grid size, freshly built, is detected as solved. *)
Theorem everyAtHome_detects_solved :
  (∀ board,
     everyAtHome board = true ↔ Forall (λ t, currentPosition t = id t) board) ∧
  (∀ st board,
     checkIfSolved st board
     = {| tiles := tiles st; isSolved := isSolved st || everyAtHome board |}) ∧
  (∀ N, everyAtHome (initialTiles N) = true) ∧
  (∀ N i, 0 ≤ i < N * N →
          initialTiles N !! Z.to_nat i = Some {| id := i; currentPosition := i |}).
Proof.
  split_and!.
  - apply everyAtHome_Forall.
  - intros [B s] board. unfold checkIfSolved, setIsSolved. simpl.
    destruct (everyAtHome board), s; reflexivity.
  - apply everyAtHome_initialTiles.
  - apply initialTiles_lookup.
Qed.

Lemma everyAtHome_detects_solved_witness :
  initialTiles 3 !! Z.to_nat 7 = Some {| id := 7; currentPosition := 7 |}.
Proof.
  apply (proj2 (proj2 (proj2 everyAtHome_detects_solved)) 3 7). lia.
Defined.

(** ** Clicking the blank *)

(** C10. A cell is never among the valid moves from itself; so a click on
    the blank tile (on any tile standing on the blank's cell) is a no-op in
    every state: board and solved flag are left as they were. *)
Theorem handleTileClick_blank N st clickedTile blankTile :
  N ≠ 0 →
  find (λ t, id t = blankTileId N) (tiles st) = Some blankTile →
  currentPosition clickedTile = currentPosition blankTile →
  (∀ p, p ∉ getValidMoves p N) ∧
  handleTileClick N st blankTile = Some st ∧
  handleTileClick N st clickedTile = Some st ∧
  attemptMove N st clickedTile = Some (tiles st, isSolved st).
Proof.
  intros HN Hb E.
  assert (∀ c, currentPosition c = currentPosition blankTile →
               handleTileClick N st c = Some st) as Hh.
  { intros c Ec. eapply handleTileClick_rejected; [done|].
    rewrite Ec. by apply getValidMoves_irrefl. }
  split_and!.
  - intros p. by apply getValidMoves_irrefl.
  - by apply Hh.
  - by apply Hh.
  - unfold attemptMove. by rewrite Hh.
Qed.

Lemma handleTileClick_blank_witness :
  (∀ p, p ∉ getValidMoves p 3) ∧
  handleTileClick 3 {| tiles := blankInCentre; isSolved := false |} (mkTile 8 4)
    = Some {| tiles := blankInCentre; isSolved := false |} ∧
  handleTileClick 3 {| tiles := blankInCentre; isSolved := false |} (mkTile 8 4)
    = Some {| tiles := blankInCentre; isSolved := false |} ∧
  attemptMove 3 {| tiles := blankInCentre; isSolved := false |} (mkTile 8 4)
    = Some (blankInCentre, false).
Proof.
  apply (handleTileClick_blank 3 {| tiles := blankInCentre; isSolved := false |}
           (mkTile 8 4) (mkTile 8 4)).
  - lia.
  - reflexivity.
  - reflexivity.
Defined.

(** ** The move counter of [SlidingPuzzle] *)

Lemma SlidingPuzzle_handleTileClick_cases N st clickedTile :
  SlidingPuzzle.handleTileClick N st clickedTile =
    if SlidingPuzzle.isSolved st then Some st else
    match find (λ t, id t = blankTileId N) (SlidingPuzzle.tiles st) with
    | None => None
    | Some blankTile =>
        if SlidingPuzzle.accepted N st clickedTile then
          let newTiles := moveTile N clickedTile blankTile
                            <$> SlidingPuzzle.tiles st in
          Some {| SlidingPuzzle.tiles := newTiles;
                  SlidingPuzzle.isSolved := everyAtHome newTiles;
                  SlidingPuzzle.moves := SlidingPuzzle.moves st + 1;
                  SlidingPuzzle.hasStarted := SlidingPuzzle.hasStarted st |}
        else Some st
    end.
Proof.
  unfold SlidingPuzzle.handleTileClick, SlidingPuzzle.accepted.
  destruct (SlidingPuzzle.isSolved st) eqn:Hs; [done|].
  destruct (find _ (SlidingPuzzle.tiles st)) as [b|]; [|done]. simpl.
  destruct (includes _ _); [|done].
  unfold SlidingPuzzle.checkIfSolved, SlidingPuzzle.setIsSolved,
    SlidingPuzzle.setMoves, SlidingPuzzle.setTiles. simpl.
  rewrite Hs. by destruct (everyAtHome _).
Qed.




(** * Further properties of the code *)

(** ** What a session keeps *)

(** X1. For a grid of side at least two, in every state of a session the
    tile at index [i] of [tiles] has identity [i]: neither the shuffle nor a
    click reorders the array or changes an [id]. *)
Theorem tile_identities_fixed N st :
  2 ≤ N → reachable N st →
  id <$> tiles st = cells N ∧
  ∀ i, 0 ≤ i < N * N →
       ∃ p, tiles st !! Z.to_nat i = Some {| id := i; currentPosition := p |}.
Proof.
  intros HN Hr. destruct (reachable_invariant N st HN Hr) as [[Hi _] _].
  split; [done|]. intros i Hir.
  assert ((id <$> tiles st) !! Z.to_nat i = Some i) as Hl.
  { rewrite Hi. unfold cells, totalTiles. rewrite list_lookup_fmap.
    rewrite lookup_seq_lt by lia. simpl. f_equal. lia. }
  rewrite list_lookup_fmap in Hl.
  destruct (tiles st !! Z.to_nat i) as [[ti tp]|]; [|done].
  simpl in Hl. exists tp. congruence.
Qed.

Lemma tile_identities_fixed_witness :
  id <$> blankInCentre = cells 3 ∧
  ∀ i, 0 ≤ i < 3 * 3 →
       ∃ p, blankInCentre !! Z.to_nat i = Some {| id := i; currentPosition := p |}.
Proof.
  apply (tile_identities_fixed 3 {| tiles := blankInCentre; isSolved := false |}).
  - lia.
  - exact reachable_blankInCentre.
Defined.

(** X2. For a grid of side at least two, the solved flag is never set on a
    board that is not solved: in every state of a session with
    [isSolved = true] the board is the identity board. *)
Theorem solved_flag_sound N st :
  2 ≤ N → reachable N st → isSolved st = true → tiles st = initialTiles N.
Proof.
  intros HN Hr Hs. destruct (reachable_invariant N st HN Hr) as [Hwf Hinv].
  apply wellFormed_everyAtHome; [done | by apply Hinv].
Qed.

Lemma solved_flag_sound_witness :
  tiles {| tiles := initialTiles 3; isSolved := true |} = initialTiles 3.
Proof.
  apply (solved_flag_sound 3 {| tiles := initialTiles 3; isSolved := true |}).
  - lia.
  - exact reachable_lockedIdentity3.
  - reflexivity.
Defined.

(** ** Errors *)

(** X3. [handleTileClick] raises (the [TypeError] of reading
    [blankTile.currentPosition]) exactly when the puzzle is not locked and no
    tile of the board has the blank's identity, as on the empty board the
    component holds before [initializePuzzle] has run; a locked puzzle never
    raises. *)
Theorem handleTileClick_raises N st clickedTile :
  handleTileClick N st clickedTile = None ↔
  isSolved st = false ∧ Forall (λ t, id t ≠ blankTileId N) (tiles st).
Proof.
  unfold handleTileClick, find. destruct (isSolved st).
  { split; [done | by intros [? _]]. }
  destruct (list_find _ (tiles st)) as [[k b]|] eqn:Hf; simpl.
  - split; [by case_match|]. intros [_ Hall].
    apply list_find_Some in Hf as (Hk & Eb & _).
    rewrite Forall_lookup in Hall. by destruct (Hall k b Hk).
  - split; [|done]. intros _. split; [done|].
    exact (proj1 (list_find_None _ _) Hf).
Qed.

Lemma handleTileClick_raises_witness :
  handleTileClick 3 {| tiles := []; isSolved := false |} (mkTile 0 0) = None.
Proof.
  apply (proj2 (handleTileClick_raises 3 {| tiles := []; isSolved := false |}
                  (mkTile 0 0))).
  split; [reflexivity | constructor].
Defined.

(** X4. On a grid of side one the blank has no valid move, and
    [initializePuzzle] raises in the first iteration of the shuffle, whatever
    the random draws and the state before. *)
Theorem initializePuzzle_gridSize_one randomIndex st0 :
  getValidMoves (blankTileId 1) 1 = [] ∧
  shufflePuzzle 1 randomIndex (initialTiles 1) = None ∧
  initializePuzzle 1 randomIndex st0 = None.
Proof. split_and!; reflexivity. Qed.

(** ** Adjacency *)

(** X5. On a grid of positive side adjacency is symmetric: for cells [p] and
    [q] of the grid, [q] is a valid move from [p] exactly when [p] is a valid
    move from [q]; and a valid move from a cell of the grid is a cell of the
    grid. *)
Theorem getValidMoves_symmetric N p q :
  0 < N → 0 ≤ p < N * N →
  (q ∈ getValidMoves p N → 0 ≤ q < N * N) ∧
  (0 ≤ q < N * N → (q ∈ getValidMoves p N ↔ p ∈ getValidMoves q N)).
Proof.
  intros HN Hp. split.
  - intros Hq. by destruct (getValidMoves_sym N p q HN Hp Hq).
  - intros Hq. split; intros Hin.
    + by destruct (getValidMoves_sym N p q HN Hp Hin).
    + by destruct (getValidMoves_sym N q p HN Hq Hin).
Qed.

Lemma getValidMoves_symmetric_witness :
  (7 ∈ getValidMoves 4 3 → 0 ≤ 7 < 3 * 3) ∧
  (0 ≤ 7 < 3 * 3 → (7 ∈ getValidMoves 4 3 ↔ 4 ∈ getValidMoves 7 3)).
Proof. apply (getValidMoves_symmetric 3 4 7); lia. Defined.

(** ** The colour of the blank's cell *)

Lemma neighbours_parity N p q :
  neighbours N p q →
  Z.even (row N q + col N q) = negb (Z.even (row N p + col N p)).
Proof.
  intros Hn. rewrite Z.negb_even.
  assert (row N q + col N q = Z.succ (row N p + col N p) ∨
          row N q + col N q = Z.pred (row N p + col N p)) as [-> | ->]
    by (unfold neighbours in Hn; lia).
  - apply Z.even_succ.
  - apply Z.even_pred.
Qed.

Lemma blankTileId_row_col N :
  0 < N → row N (blankTileId N) = N - 1 ∧ col N (blankTileId N) = N - 1.
Proof.
  intros HN. unfold blankTileId, totalTiles.
  split; [apply (row_eq N _ (N - 1) (N - 1)) | apply (col_eq N _ (N - 1) (N - 1))];
    lia.
Qed.

(** Each shuffle move takes the blank to a cell of the other colour of the
    checkerboard. *)
Lemma shuffleTrace_parity N randomIndex k board blankPos :
  0 < N → shuffleTrace N randomIndex k board blankPos →
  Z.even (row N blankPos + col N blankPos) = Nat.even k.
Proof.
  intros HN Ht. induction Ht as [|k B bp c Ht IH Hc].
  - destruct (blankTileId_row_col N HN) as [-> ->].
    rewrite Z.even_add. by destruct (Z.even (N - 1)).
  - destruct (shuffleTrace_invariant N randomIndex k B bp HN Ht) as [Hwf Hbp].
    pose proof (positionOf_range _ _ _ _ Hwf Hbp) as Hr.
    apply list_elem_of_lookup_2, getValidMoves_elem in Hc as [_ Hn]; [|done..].
    rewrite (neighbours_parity N bp c Hn), IH.
    by rewrite Nat.even_succ, Nat.negb_even.
Qed.

(** X6. After [initializePuzzle] (100 shuffle moves, an even number) the
    blank is on a cell of the same checkerboard colour as its home cell
    [N²-1], so never on a cell next to its home; hence no single click on a
    freshly shuffled board solves the puzzle. *)
Theorem fresh_shuffle_not_one_click_from_solved N randomIndex st0 st :
  2 ≤ N → validRandom randomIndex →
  initializePuzzle N randomIndex st0 = Some st →
  (∃ blankPos,
     positionOf (tiles st) (blankTileId N) = Some blankPos ∧
     Z.even (row N blankPos + col N blankPos)
     = Z.even (row N (blankTileId N) + col N (blankTileId N)) ∧
     blankTileId N ∉ getValidMoves blankPos N) ∧
  (∀ clickedTile st',
     clickedTile ∈ tiles st →
     handleTileClick N st clickedTile = Some st' → isSolved st' = false).
Proof.
  intros HN Hrnd Hi. assert (0 < N) as HN0 by lia.
  destruct (initializePuzzle_shuffled N randomIndex st0 HN Hrnd)
    as (B & bp & Hi' & Hwf & Hbp & _ & Ht).
  rewrite Hi' in Hi. injection Hi as <-. simpl.
  pose proof (shuffleTrace_parity N randomIndex 100 B bp HN0 Ht) as Hpar.
  pose proof (positionOf_range _ _ _ _ Hwf Hbp) as Hr.
  assert (Z.even (row N (blankTileId N) + col N (blankTileId N)) = true) as Hhome.
  { destruct (blankTileId_row_col N HN0) as [-> ->].
    rewrite Z.even_add. by destruct (Z.even (N - 1)). }
  assert (blankTileId N ∉ getValidMoves bp N) as Hnot.
  { intros [_ Hn]%getValidMoves_elem; [|done..].
    apply neighbours_parity in Hn. rewrite Hhome, Hpar in Hn. done. }
  split.
  { exists bp. split_and!; [done| |done]. by rewrite Hhome, Hpar. }
  intros c st' Hc Hh.
  destruct (find_blank_wellFormed N B HN0 Hwf) as (b & Hb & Hbin & Eb & Hp).
  assert (currentPosition b = bp) as Ebp by congruence.
  destruct (decide (currentPosition c ∈ getValidMoves (currentPosition b) N))
    as [Hin|Hnin].
  - destruct (handleTileClick_slide N {| tiles := B; isSolved := false |} c b)
      as [Hh' Hs]; try done.
    rewrite Hh' in Hh. injection Hh as <-. simpl in *.
    destruct (everyAtHome _) eqn:Hhome'; [exfalso|done].
    apply wellFormed_everyAtHome with (N := N) in Hhome';
      [|by eapply slide_wellFormed].
    pose proof (positionOf_initialTiles N HN0) as Hpi.
    rewrite <- Hhome', positionOf_swapCells, Hp in Hpi. simpl in Hpi.
    unfold transpose in Hpi. rewrite decide_True in Hpi by done.
    apply Hnot. rewrite <- Ebp. congruence.
  - rewrite (handleTileClick_rejected N _ c b) in Hh by done.
    by injection Hh as <-.
Qed.

Lemma fresh_shuffle_not_one_click_from_solved_witness :
  isSolved {| tiles := blankMovedUp; isSolved := false |} = false.
Proof.
  apply (proj2 (fresh_shuffle_not_one_click_from_solved 3 backAndForth
                  {| tiles := []; isSolved := false |}
                  {| tiles := initialTiles 3; isSolved := false |}
                  ltac:(lia) validRandom_backAndForth
                  ltac:(vm_compute; reflexivity))
           (mkTile 5 5)).
  - apply list_elem_of_In. simpl. tauto.
  - vm_compute. reflexivity.
Defined.

(** ** Counting the moves of a solution *)

Lemma shuffleTrace_nsteps N randomIndex k board blankPos :
  0 < N → shuffleTrace N randomIndex k board blankPos →
  nsteps (slide N) k (initialTiles N) board.
Proof.
  intros HN Ht. induction Ht as [|k B bp c Ht IH Hc]; [constructor|].
  destruct (shuffleTrace_invariant N randomIndex k B bp HN Ht) as [Hwf Hbp].
  eapply nsteps_r; [done|]. split; [done|]. exists bp, c.
  split_and!; [done| |done]. by eapply list_elem_of_lookup_2.
Qed.

Lemma slide_nsteps_sym N n board board' :
  0 < N → nsteps (slide N) n board board' → nsteps (slide N) n board' board.
Proof.
  intros HN Hn. induction Hn as [|n x y z Hxy _ IH]; [constructor|].
  eapply nsteps_r; [done|]. by apply slide_sym.
Qed.

(** A legal sliding move on the board of an unlocked puzzle is what a legal
    click on the tile that slides does. *)
Lemma slide_click N st board' :
  0 < N → isSolved st = false → slide N (tiles st) board' →
  ∃ clickedTile,
    legalClick N st clickedTile = true ∧
    handleTileClick N st clickedTile
    = Some {| tiles := board'; isSolved := everyAtHome board' |}.
Proof.
  intros HN Hf (Hwf & bp & c & Hbp & Hc & ->).
  pose proof (positionOf_range _ _ _ _ Hwf Hbp) as Hbr.
  destruct (getValidMoves_sym N bp c HN Hbr Hc) as [Hcr _].
  destruct (wellFormed_occupied N (tiles st) c Hwf Hcr) as (i & t & Hi & Et).
  apply list_elem_of_lookup_2 in Hi.
  destruct (find_blank_wellFormed N (tiles st) HN Hwf)
    as (b & Hb & Hbin & Eb & Hp).
  assert (currentPosition b = bp) as Ebp by congruence.
  destruct (handleTileClick_slide N st t b) as [Hh _]; try done.
  { by rewrite Ebp, Et. }
  rewrite Ebp, Et in Hh. exists t. split; [|done].
  unfold legalClick. rewrite Hf, Hb, bool_decide_true by done. simpl.
  unfold includes. apply bool_decide_true. by rewrite Ebp, Et.
Qed.

Lemma nsteps_playLegal N n board :
  0 < N → nsteps (slide N) n board (initialTiles N) →
  ∀ st, tiles st = board → isSolved st = false →
  ∃ clicks st',
    (length clicks ≤ n)%nat ∧
    playLegal N st clicks = Some st' ∧ tiles st' = initialTiles N.
Proof.
  intros HN Hn. remember (initialTiles N) as goal eqn:Hgoal.
  induction Hn as [|n B B1 B2 Hs Hn IH]; intros st Ht Hf.
  { exists [], st. split_and!; [done | done | congruence]. }
  subst B. pose proof (slide_wellFormed N _ B1 HN Hs) as Hwf1.
  destruct (slide_click N st B1 HN Hf Hs) as (t & Hl & Hh).
  destruct (everyAtHome B1) eqn:Hhome.
  - exists [t]. eexists. simpl. rewrite Hl, Hh. simpl.
    split_and!; [lia | done |]. simpl. rewrite Hgoal.
    by apply wellFormed_everyAtHome.
  - destruct (IH Hgoal {| tiles := B1; isSolved := false |})
      as (clicks & st' & Hlen & Hplay & Hfin); [done..|].
    exists (t :: clicks), st'. simpl. rewrite Hl, Hh. simpl.
    split_and!; [lia | done | done].
Qed.

(** X7. Every board that [initializePuzzle] produces can be solved with at
    most 100 legal clicks: the shuffle makes 100 moves and each can be taken
    back. *)
Theorem fresh_board_solvable_within_100 N randomIndex st0 st :
  2 ≤ N → validRandom randomIndex →
  initializePuzzle N randomIndex st0 = Some st →
  ∃ clicks st',
    (length clicks ≤ 100)%nat ∧
    playLegal N st clicks = Some st' ∧
    tiles st' = initialTiles N.
Proof.
  intros HN Hrnd Hi. assert (0 < N) as HN0 by lia.
  destruct (initializePuzzle_shuffled N randomIndex st0 HN Hrnd)
    as (B & bp & Hi' & Hwf & _ & _ & Ht).
  rewrite Hi' in Hi. injection Hi as <-.
  apply (nsteps_playLegal N 100 B HN0); [|done..].
  apply slide_nsteps_sym; [done|]. by eapply shuffleTrace_nsteps.
Qed.

Lemma fresh_board_solvable_within_100_witness :
  ∃ clicks st',
    (length clicks ≤ 100)%nat ∧
    playLegal 3
      {| tiles := [mkTile 0 4; mkTile 1 3; mkTile 2 2; mkTile 3 1; mkTile 4 5;
                   mkTile 5 8; mkTile 6 6; mkTile 7 7; mkTile 8 0];
         isSolved := false |} clicks = Some st' ∧
    tiles st' = initialTiles 3.
Proof.
  apply (fresh_board_solvable_within_100 3 roundRobin
           {| tiles := []; isSolved := false |}).
  - lia.
  - exact validRandom_roundRobin.
  - vm_compute. reflexivity.
Defined.

(** ** Clicks that move a tile *)

(** X8. In a state of a session, a click on a displayed tile changes the
    board exactly when it is a legal move (puzzle not locked, tile next to
    the blank); every other click leaves the whole state as it was. *)
Theorem click_changes_board_iff_legal N st clickedTile st' :
  2 ≤ N → reachable N st → clickedTile ∈ tiles st →
  handleTileClick N st clickedTile = Some st' →
  (tiles st' ≠ tiles st ↔ legalClick N st clickedTile = true) ∧
  (legalClick N st clickedTile = false → st' = st).
Proof.
  intros HN Hr Hc Hh. assert (0 < N) as HN0 by lia.
  destruct (reachable_invariant N st HN Hr) as [Hwf _].
  destruct (find_blank_wellFormed N (tiles st) HN0 Hwf)
    as (b & Hb & Hbin & Eb & Hp).
  unfold legalClick. rewrite Hb, bool_decide_true by done.
  destruct (isSolved st) eqn:Hs; simpl.
  { rewrite handleTileClick_locked in Hh by done. injection Hh as <-.
    split; [split; [by intros [] | done] | done]. }
  unfold includes.
  destruct (decide (currentPosition clickedTile
                      ∈ getValidMoves (currentPosition b) N)) as [Hin|Hnin].
  - rewrite bool_decide_true by done.
    destruct (handleTileClick_slide N st clickedTile b) as [Hh' _]; try done.
    rewrite Hh' in Hh. injection Hh as <-. simpl.
    split; [|done]. split; [done|]. intros _ E.
    pose proof (positionOf_elem N (tiles st) clickedTile Hwf Hc) as Hpos.
    pose proof (positionOf_swapCells (currentPosition b)
                  (currentPosition clickedTile) (tiles st) (id clickedTile))
      as Hsw.
    rewrite E, Hpos in Hsw. simpl in Hsw.
    injection Hsw as Hsw. unfold transpose in Hsw.
    assert (currentPosition clickedTile ≠ currentPosition b) as Hne.
    { intros E'. rewrite E' in Hin.
      by apply (getValidMoves_irrefl N (currentPosition b)); [lia|]. }
    rewrite decide_False, decide_True in Hsw by done. congruence.
  - rewrite bool_decide_false by done.
    rewrite (handleTileClick_rejected N st clickedTile b) in Hh by done.
    injection Hh as <-. split; [split; [by intros [] | done] | done].
Qed.

Lemma click_changes_board_iff_legal_witness :
  (blankMovedUp ≠ initialTiles 3 ↔
   legalClick 3 {| tiles := initialTiles 3; isSolved := false |} (mkTile 5 5) = true) ∧
  (legalClick 3 {| tiles := initialTiles 3; isSolved := false |} (mkTile 5 5) = false →
   {| tiles := blankMovedUp; isSolved := false |}
   = {| tiles := initialTiles 3; isSolved := false |}).
Proof.
  apply (click_changes_board_iff_legal 3
           {| tiles := initialTiles 3; isSolved := false |} (mkTile 5 5)
           {| tiles := blankMovedUp; isSolved := false |}).
  - lia.
  - exact reachable_identity3.
  - apply list_elem_of_In. simpl. tauto.
  - vm_compute. reflexivity.
Defined.

(** X9. A legal click that does not solve the puzzle can be taken back: a
    click on the tile that has just moved puts the board back as it was, and
    the solved flag becomes the verdict of the detector on that board. *)
Theorem click_undo N st clickedTile blankTile st' :
  2 ≤ N → reachable N st → isSolved st = false →
  clickedTile ∈ tiles st →
  find (λ t, id t = blankTileId N) (tiles st) = Some blankTile →
  currentPosition clickedTile ∈ getValidMoves (currentPosition blankTile) N →
  handleTileClick N st clickedTile = Some st' →
  isSolved st' = false →
  withCurrentPosition clickedTile (currentPosition blankTile) ∈ tiles st' ∧
  handleTileClick N st'
    (withCurrentPosition clickedTile (currentPosition blankTile))
  = Some {| tiles := tiles st; isSolved := everyAtHome (tiles st) |}.
Proof.
  intros HN Hr Hs Hc Hb Hin Hh Hs'. assert (0 < N) as HN0 by lia.
  destruct (reachable_invariant N st HN Hr) as [Hwf _].
  destruct (find_blank_wellFormed N (tiles st) HN0 Hwf)
    as (b & Hb' & Hbin & Eb & Hp).
  assert (b = blankTile) as -> by congruence.
  destruct (handleTileClick_slide N st clickedTile blankTile) as [Hh' Hsl];
    try done.
  rewrite Hh' in Hh. injection Hh as <-. simpl in *.
  set (a := currentPosition blankTile) in *.
  set (c := currentPosition clickedTile) in *.
  pose proof (slide_wellFormed N _ _ HN0 Hsl) as Hwf'.
  assert (c ≠ a) as Hne.
  { intros E. rewrite E in Hin. by apply (getValidMoves_irrefl N a); [lia|]. }
  pose proof (wellFormed_position_range N (tiles st) blankTile Hwf Hbin) as Har.
  fold a in Har.
  assert (withCurrentPosition clickedTile a ∈ swapCells a c (tiles st)) as Hin'.
  { unfold swapCells. eapply list_elem_of_fmap_2'; [exact Hc|].
    fold c. by rewrite decide_False, decide_True. }
  split; [done|].
  destruct (find_blank_wellFormed N _ HN0 Hwf') as (b' & Hb'' & _ & _ & Hp').
  rewrite positionOf_swapCells, Hp in Hp'. simpl in Hp'.
  unfold transpose in Hp'. rewrite decide_True in Hp' by done.
  injection Hp' as Hp'.
  destruct (handleTileClick_slide N
              {| tiles := swapCells a c (tiles st); isSolved := false |}
              (withCurrentPosition clickedTile a) b') as [Hu _]; try done.
  { simpl. rewrite <- Hp'.
    by destruct (getValidMoves_sym N a c HN0 Har Hin). }
  simpl in Hu. rewrite <- Hp' in Hu.
  rewrite (swapCells_comm c a), swapCells_involutive in Hu.
  rewrite Hs' in *. exact Hu.
Qed.

Lemma click_undo_witness :
  withCurrentPosition (mkTile 5 5) (currentPosition (mkTile 8 8)) ∈ blankMovedUp ∧
  handleTileClick 3 {| tiles := blankMovedUp; isSolved := false |}
    (withCurrentPosition (mkTile 5 5) (currentPosition (mkTile 8 8)))
  = Some {| tiles := initialTiles 3; isSolved := everyAtHome (initialTiles 3) |}.
Proof.
  apply (click_undo 3 {| tiles := initialTiles 3; isSolved := false |}
           (mkTile 5 5) (mkTile 8 8)
           {| tiles := blankMovedUp; isSolved := false |}).
  - lia.
  - exact reachable_identity3.
  - reflexivity.
  - apply list_elem_of_In. simpl. tauto.
  - reflexivity.
  - apply list_elem_of_In. simpl. tauto.
  - vm_compute. reflexivity.
  - reflexivity.
Defined.

(** ** Where the tiles are drawn *)

Lemma wellFormed_id_range N board t :
  wellFormed N board → t ∈ board → 0 ≤ id t < N * N.
Proof.
  intros [Hi _] Ht. apply elem_of_cells. rewrite <- Hi.
  by apply list_elem_of_fmap_2.
Qed.

Lemma getTileStyle_row_col N t :
  0 < N → 0 ≤ currentPosition t → 0 ≤ id t →
  getTileStyle N t
  = {| TileStyle.row := row N (currentPosition t);
       TileStyle.col := col N (currentPosition t);
       TileStyle.originalRow := row N (id t);
       TileStyle.originalCol := col N (id t) |}.
Proof.
  intros HN Hp Hi. unfold getTileStyle, row, col.
  by rewrite !Z.rem_mod_nonneg by lia.
Qed.

(** X10. In every state of a session (grid of side at least two)
    [getTileStyle] draws each tile on a cell of the grid, row and column
    below [N], with [currentPosition = row * N + col]; no two tiles are drawn
    on the same cell, and every cell of the grid has its tile. *)
Theorem getTileStyle_layout N st :
  2 ≤ N → reachable N st →
  (∀ t, t ∈ tiles st →
        0 ≤ TileStyle.row (getTileStyle N t) < N ∧
        0 ≤ TileStyle.col (getTileStyle N t) < N ∧
        currentPosition t
        = TileStyle.row (getTileStyle N t) * N + TileStyle.col (getTileStyle N t)) ∧
  (∀ t u, t ∈ tiles st → u ∈ tiles st →
          TileStyle.row (getTileStyle N t) = TileStyle.row (getTileStyle N u) →
          TileStyle.col (getTileStyle N t) = TileStyle.col (getTileStyle N u) →
          t = u) ∧
  (∀ r c, 0 ≤ r < N → 0 ≤ c < N →
          ∃ t, t ∈ tiles st ∧
               TileStyle.row (getTileStyle N t) = r ∧
               TileStyle.col (getTileStyle N t) = c).
Proof.
  intros HN Hr. assert (0 < N) as HN0 by lia.
  destruct (reachable_invariant N st HN Hr) as [Hwf _].
  assert (∀ t, t ∈ tiles st →
            getTileStyle N t
            = {| TileStyle.row := row N (currentPosition t);
                 TileStyle.col := col N (currentPosition t);
                 TileStyle.originalRow := row N (id t);
                 TileStyle.originalCol := col N (id t) |}) as Hst.
  { intros t Ht. apply getTileStyle_row_col; [done|..].
    - by destruct (wellFormed_position_range N _ t Hwf Ht).
    - by destruct (wellFormed_id_range N _ t Hwf Ht). }
  split_and!.
  - intros t Ht. rewrite (Hst t Ht). simpl.
    pose proof (wellFormed_position_range N _ t Hwf Ht) as Hp.
    destruct (cell_decompose N (currentPosition t) HN0) as [E Hc].
    pose proof (row_range N _ HN0 Hp). split_and!; lia.
  - intros t u Ht Hu. rewrite (Hst t Ht), (Hst u Hu). simpl. intros Er Ec.
    eapply (NoDup_fmap_elem_inj currentPosition); [|done..|].
    { by eapply wellFormed_positions_NoDup. }
    destruct (cell_decompose N (currentPosition t) HN0) as [Et _].
    destruct (cell_decompose N (currentPosition u) HN0) as [Eu _].
    rewrite Et, Eu, Er, Ec. done.
  - intros r c Hrr Hcr.
    destruct (wellFormed_occupied N (tiles st) (N * r + c) Hwf)
      as (i & t & Hi & Et); [by apply cell_of_row_col|].
    apply list_elem_of_lookup_2 in Hi. exists t. rewrite (Hst t Hi). simpl.
    split_and!; [done|..].
    + by apply (row_eq N _ r c).
    + by apply (col_eq N _ r c).
Qed.

Lemma getTileStyle_layout_witness :
  ∃ t, t ∈ blankInCentre ∧
       TileStyle.row (getTileStyle 3 t) = 1 ∧
       TileStyle.col (getTileStyle 3 t) = 1.
Proof.
  apply (proj2 (proj2 (getTileStyle_layout 3
                         {| tiles := blankInCentre; isSolved := false |}
                         ltac:(lia) reachable_blankInCentre)) 1 1); lia.
Defined.

(** X11. In every state of a session the picture is assembled exactly when
    the detector says solved: every tile is drawn on the cell whose slice of
    the picture it shows (row = originalRow and col = originalCol) if and
    only if every tile's [currentPosition] equals its [id]. *)
Theorem getTileStyle_assembled_iff_solved N st :
  2 ≤ N → reachable N st →
  (∀ t, t ∈ tiles st →
        TileStyle.row (getTileStyle N t) = TileStyle.originalRow (getTileStyle N t) ∧
        TileStyle.col (getTileStyle N t) = TileStyle.originalCol (getTileStyle N t))
  ↔ everyAtHome (tiles st) = true.
Proof.
  intros HN Hr. assert (0 < N) as HN0 by lia.
  destruct (reachable_invariant N st HN Hr) as [Hwf _].
  rewrite everyAtHome_Forall, Forall_forall. split.
  - intros H t Ht. destruct (H t Ht) as [Er Ec].
    pose proof (wellFormed_position_range N _ t Hwf Ht) as Hp.
    pose proof (wellFormed_id_range N _ t Hwf Ht) as Hi.
    rewrite getTileStyle_row_col in Er, Ec by lia. simpl in *.
    destruct (cell_decompose N (currentPosition t) HN0) as [Et _].
    destruct (cell_decompose N (id t) HN0) as [Ei _].
    rewrite Et, Ei, Er, Ec. done.
  - intros H t Ht. unfold getTileStyle. simpl. by rewrite (H t Ht).
Qed.

Lemma getTileStyle_assembled_iff_solved_witness :
  (∀ t, t ∈ initialTiles 3 →
        TileStyle.row (getTileStyle 3 t) = TileStyle.originalRow (getTileStyle 3 t) ∧
        TileStyle.col (getTileStyle 3 t) = TileStyle.originalCol (getTileStyle 3 t))
  ↔ everyAtHome (initialTiles 3) = true.
Proof.
  apply (getTileStyle_assembled_iff_solved 3
           {| tiles := initialTiles 3; isSolved := true |}).
  - lia.
  - exact reachable_lockedIdentity3.
Defined.

(** ** Sessions of [SlidingPuzzle] *)

Lemma SlidingPuzzle_engineView_click N st clickedTile :
  SlidingPuzzle.engineView <$> SlidingPuzzle.handleTileClick N st clickedTile
  = handleTileClick N (SlidingPuzzle.engineView st) clickedTile.
Proof.
  rewrite SlidingPuzzle_handleTileClick_cases.
  unfold handleTileClick, SlidingPuzzle.accepted. simpl.
  destruct (SlidingPuzzle.isSolved st) eqn:Hs; [done|].
  destruct (find _ (SlidingPuzzle.tiles st)) as [b|]; [|done]. simpl.
  destruct (includes _ _); [|done]. simpl.
  by rewrite checkIfSolved_setTiles.
Qed.

Lemma SlidingPuzzle_click_moves N st clickedTile st' :
  SlidingPuzzle.handleTileClick N st clickedTile = Some st' →
  SlidingPuzzle.moves st'
  = SlidingPuzzle.moves st
    + (if SlidingPuzzle.accepted N st clickedTile then 1 else 0) ∧
  SlidingPuzzle.hasStarted st' = SlidingPuzzle.hasStarted st ∧
  (SlidingPuzzle.accepted N st clickedTile = false → st' = st) ∧
  (SlidingPuzzle.isSolved st = true →
   SlidingPuzzle.accepted N st clickedTile = false).
Proof.
  rewrite SlidingPuzzle_handleTileClick_cases.
  unfold SlidingPuzzle.accepted.
  destruct (SlidingPuzzle.isSolved st); simpl.
  { intros [= <-]. split_and!; [lia | done..]. }
  destruct (find _ (SlidingPuzzle.tiles st)) as [b|]; [|done].
  destruct (includes _ _); intros [= <-]; simpl; split_and!; (lia || done).
Qed.

Lemma SlidingPuzzle_initializePuzzle_shuffled N randomIndex st0 :
  2 ≤ N → validRandom randomIndex →
  ∃ board,
    SlidingPuzzle.initializePuzzle N randomIndex st0
    = Some {| SlidingPuzzle.tiles := board; SlidingPuzzle.isSolved := false;
              SlidingPuzzle.moves := 0;
              SlidingPuzzle.hasStarted := SlidingPuzzle.hasStarted st0 |} ∧
    wellFormed N board.
Proof.
  intros HN Hrnd.
  destruct (shufflePuzzle_slides N randomIndex HN Hrnd)
    as (B & bp & Hs & Hwf & _).
  exists B. unfold SlidingPuzzle.initializePuzzle. rewrite Hs. by split.
Qed.

(** X12. In every state of a [SlidingPuzzle] (grid of side at least two) the
    tile at index [i] has identity [i], the positions are a permutation of
    the cells, and the move counter is not negative; while the solved flag is
    set, the board is the identity board, it is on display, and the counter
    is at least one: the overlay never reports a puzzle solved in 0 moves. *)
Theorem slidingPuzzle_session_invariant N st :
  2 ≤ N → slidingPuzzleSession N st →
  id <$> SlidingPuzzle.tiles st = cells N ∧
  currentPosition <$> SlidingPuzzle.tiles st ≡ₚ cells N ∧
  0 ≤ SlidingPuzzle.moves st ∧
  (SlidingPuzzle.isSolved st = true →
   SlidingPuzzle.tiles st = initialTiles N ∧
   1 ≤ SlidingPuzzle.moves st ∧
   SlidingPuzzle.hasStarted st = true).
Proof.
  intros HN Hs. assert (0 < N) as HN0 by lia.
  enough (wellFormed N (SlidingPuzzle.tiles st) ∧
          0 ≤ SlidingPuzzle.moves st ∧
          (SlidingPuzzle.isSolved st = true →
           everyAtHome (SlidingPuzzle.tiles st) = true ∧
           1 ≤ SlidingPuzzle.moves st ∧
           SlidingPuzzle.hasStarted st = true)) as ([Hi Hp] & Hm & Hsol).
  { split_and!; try done. intros Hf. destruct (Hsol Hf) as (Hh & ? & ?).
    split_and!; try done. by apply wellFormed_everyAtHome. }
  induction Hs as [rnd st Hrnd Hi|rnd st st' _ IH Hst Hrnd Hi|st _ IH Hst
                  |st c st' _ IH Hst Hc Hh].
  - destruct (SlidingPuzzle_initializePuzzle_shuffled N rnd
                slidingPuzzleInitial HN Hrnd) as (B & Hi' & Hwf).
    rewrite Hi' in Hi. injection Hi as <-. simpl. split_and!; (done || lia).
  - unfold SlidingPuzzle.handleStart in Hi.
    destruct (SlidingPuzzle_initializePuzzle_shuffled N rnd
                (SlidingPuzzle.setHasStarted st true) HN Hrnd) as (B & Hi' & Hwf).
    rewrite Hi' in Hi. injection Hi as <-. simpl. split_and!; (done || lia).
  - destruct IH as (Hwf & _ & _). simpl. split_and!; (done || lia).
  - destruct IH as (Hwf & Hm & Hsol).
    destruct (SlidingPuzzle_click_moves N st c st' Hh) as (Em & Es & Hrej & Hlock).
    pose proof (SlidingPuzzle_engineView_click N st c) as Hv.
    rewrite Hh in Hv. simpl in Hv. symmetry in Hv.
    destruct (handleTileClick_invariant N (SlidingPuzzle.engineView st) c
                (SlidingPuzzle.engineView st') HN0) as [Hwf' Hinv']; try done.
    { simpl. intros Hf. by destruct (Hsol Hf). }
    simpl in *. split_and!.
    + done.
    + destruct (SlidingPuzzle.accepted N st c); lia.
    + intros Hf. split_and!; [by apply Hinv' | | congruence].
      destruct (SlidingPuzzle.accepted N st c) eqn:Ha; [lia|].
      rewrite (Hrej eq_refl) in *. by destruct (Hsol Hf) as (_ & ? & _).
Qed.

Lemma slidingPuzzle_session_invariant_witness :
  ∃ st,
    SlidingPuzzle.initializePuzzle 3 roundRobin slidingPuzzleInitial = Some st ∧
    currentPosition <$> SlidingPuzzle.tiles st ≡ₚ cells 3.
Proof.
  eexists. split; [vm_compute; reflexivity|].
  apply (slidingPuzzle_session_invariant 3); [lia|].
  apply (session_mount 3 roundRobin).
  - exact validRandom_roundRobin.
  - vm_compute. reflexivity.
Defined.

(** X13. The move counter of [SlidingPuzzle] counts the accepted clicks:
    when a sequence of clicks is played, the counter grows by the number of
    clicks of the sequence that were accepted, which is at most the length
    of the sequence; [initializePuzzle] sets the counter to zero and
    [handleReset] does too. *)
Theorem moves_counts_accepted_clicks N :
  (∀ clicks st st',
     slidingPuzzlePlay N st clicks = Some st' →
     SlidingPuzzle.moves st'
     = SlidingPuzzle.moves st + acceptedClicks N st clicks ∧
     0 ≤ acceptedClicks N st clicks ≤ Z.of_nat (length clicks)) ∧
  (∀ randomIndex st0 st,
     SlidingPuzzle.initializePuzzle N randomIndex st0 = Some st →
     SlidingPuzzle.moves st = 0) ∧
  (∀ st, SlidingPuzzle.moves (SlidingPuzzle.handleReset st) = 0).
Proof.
  split_and!.
  - intros clicks. induction clicks as [|c clicks IH]; intros st st' Hp.
    { injection Hp as <-. simpl. lia. }
    cbn [slidingPuzzlePlay acceptedClicks] in *.
    destruct (SlidingPuzzle.handleTileClick N st c) as [st1|] eqn:Hh; [|done].
    simpl in Hp. destruct (IH st1 st' Hp) as [Em Hb].
    destruct (SlidingPuzzle_click_moves N st c st1 Hh) as (Em1 & _).
    rewrite Em, Em1. cbn [length].
    destruct (SlidingPuzzle.accepted N st c); lia.
  - intros rnd st0 st Hi. unfold SlidingPuzzle.initializePuzzle in Hi.
    destruct (shufflePuzzle _ _ _); simpl in Hi; [|done].
    by injection Hi as <-.
  - done.
Qed.

Lemma moves_counts_accepted_clicks_witness :
  SlidingPuzzle.moves
    {| SlidingPuzzle.tiles := initialTiles 3; SlidingPuzzle.isSolved := true;
       SlidingPuzzle.moves := 2; SlidingPuzzle.hasStarted := true |}
  = 0 + acceptedClicks 3
          {| SlidingPuzzle.tiles := initialTiles 3; SlidingPuzzle.isSolved := false;
             SlidingPuzzle.moves := 0; SlidingPuzzle.hasStarted := true |}
          [mkTile 5 5; mkTile 0 0; mkTile 5 8; mkTile 7 7].
Proof.
  apply (proj1 (moves_counts_accepted_clicks 3)
           [mkTile 5 5; mkTile 0 0; mkTile 5 8; mkTile 7 7]
           {| SlidingPuzzle.tiles := initialTiles 3; SlidingPuzzle.isSolved := false;
              SlidingPuzzle.moves := 0; SlidingPuzzle.hasStarted := true |}).
  vm_compute. reflexivity.
Defined.

(** ** The whole component: stages and timers *)

Lemma Shell_run_app N st events1 events2 :
  Shell.run N st (events1 ++ events2)
  = Shell.run N st events1 ≫= λ st', Shell.run N st' events2.
Proof.
  revert st. induction events1 as [|e events1 IH]; intros st; [done|].
  simpl. destruct (Shell.dispatch N st e) as [st1|]; [|done]. simpl. apply IH.
Qed.

Lemma Shell_run_snoc N st events e st' :
  Shell.run N st (events ++ [e]) = Some st' ↔
  ∃ st1, Shell.run N st events = Some st1 ∧ Shell.dispatch N st1 e = Some st'.
Proof.
  rewrite Shell_run_app. split.
  - intros H. destruct (Shell.run N st events) as [st1|]; [|done].
    exists st1. split; [done|]. simpl in H.
    by destruct (Shell.dispatch N st1 e).
  - intros (st1 & -> & Hd). simpl. by rewrite Hd.
Qed.

(** What a click on a tile does to the state of the whole component. *)
Lemma Shell_handleTileClick_cases N st clickedTile st' :
  Shell.handleTileClick N st clickedTile = Some st' →
  st' = st ∨
  (∃ newTiles,
     everyAtHome newTiles = false ∧ st' = Shell.setTiles st newTiles) ∨
  (∃ newTiles,
     everyAtHome newTiles = true ∧
     st' = Shell.setTimeout
             (Shell.setIsSolved (Shell.setTiles st newTiles) true) message).
Proof.
  unfold Shell.handleTileClick.
  destruct (Shell.isSolved st); [intros [= <-]; by left|].
  destruct (find _ (Shell.tiles st)) as [b|]; [|done]. simpl.
  destruct (includes _ _); [|intros [= <-]; by left].
  unfold Shell.checkIfSolved.
  destruct (everyAtHome (moveTile N clickedTile b <$> Shell.tiles st)) eqn:Hh;
    intros [= <-]; right; [right|left]; by eexists.
Qed.

Lemma Shell_engineView_click N st clickedTile :
  Shell.engineView <$> Shell.handleTileClick N st clickedTile
  = handleTileClick N (Shell.engineView st) clickedTile.
Proof.
  unfold Shell.handleTileClick, handleTileClick. simpl.
  destruct (Shell.isSolved st) eqn:Hs; [done|].
  destruct (find _ (Shell.tiles st)) as [b|]; [|done]. simpl.
  destruct (includes _ _); [|done]. simpl.
  rewrite checkIfSolved_setTiles by exact Hs.
  unfold Shell.checkIfSolved.
  destruct (everyAtHome _); unfold Shell.engineView; simpl; by rewrite ?Hs.
Qed.

(** An event opens the gate only by solving the puzzle in the puzzle stage. *)
Lemma Shell_dispatch_gate N st e st' :
  Shell.dispatch N st e = Some st' → gateOpen st' →
  gateOpen st ∨
  (Shell.stage st' = puzzle ∧ Shell.isSolved st' = true ∧
   everyAtHome (Shell.tiles st') = true).
Proof.
  unfold Shell.dispatch, gateOpen. intros Hd Hg.
  destruct e;
    [destruct (Shell.stage st) eqn:Hs; try done .. |].
  - (* the envelope is clicked *)
    injection Hd as <-. simpl in Hg. rewrite Hs, Exists_app in Hg. left.
    destruct Hg as [?|[?|Hp]]; [done | by right |].
    apply Exists_cons in Hp as [?|?%Exists_nil]; done.
  - (* Start Puzzle *)
    unfold Shell.handleStartPuzzle, Shell.initializePuzzle in Hd.
    destruct (shufflePuzzle _ _ _); simpl in Hd; [|done].
    injection Hd as <-. simpl in Hg. left.
    destruct Hg as [?|?]; [done | by right].
  - (* a tile is clicked *)
    case_bool_decide; [|done].
    apply Shell_handleTileClick_cases in Hd
      as [->|[(B & Hh & ->)|(B & Hh & ->)]]; simpl in *.
    + left. by rewrite Hs in Hg.
    + left. by rewrite Hs in Hg.
    + by right.
  - (* Continue *) by left; left.
  - (* Yes *) by left; left.
  - (* No *) by left; left.
  - (* a timer fires *)
    assert (Shell.timerFires st = Some st') as Hf
      by (by destruct (Shell.stage st)).
    unfold Shell.timerFires in Hf.
    destruct (Shell.timers st) as [|t pending] eqn:Ht; [done|].
    injection Hf as <-. simpl in Hg. left. right.
    apply Exists_cons. destruct Hg as [?|?]; [by left | by right].
Qed.

(** Where the stage is past the puzzle, or a timer leading there is pending,
    the puzzle has been solved in the puzzle stage before. *)
Lemma Shell_gate_invariant N st0 events st :
  ¬ gateOpen st0 →
  Shell.run N st0 events = Some st → gateOpen st →
  ∃ events1 events2 st1,
    events = events1 ++ events2 ∧
    Shell.run N st0 events1 = Some st1 ∧
    Shell.stage st1 = puzzle ∧
    Shell.isSolved st1 = true ∧
    everyAtHome (Shell.tiles st1) = true.
Proof.
  intros Hst0. revert st.
  induction events as [|e events IH] using rev_ind; intros st Hrun Hg.
  { injection Hrun as <-. done. }
  apply Shell_run_snoc in Hrun as (st1 & Hrun & Hd).
  destruct (Shell_dispatch_gate N st1 e st Hd Hg) as [Hg1|(Hs & Hf & Hh)].
  - destruct (IH st1 Hrun Hg1) as (e1 & e2 & st2 & -> & Hrest).
    exists e1, (e2 ++ [e]), st2. by rewrite app_assoc.
  - exists (events ++ [e]), [], st. rewrite app_nil_r. split_and!; try done.
    apply Shell_run_snoc. by exists st1.
Qed.


(** X14. The stages behind the puzzle are gated by it: whenever, after the
    component is mounted and any sequence of clicks and timer firings, the
    stage is message, question or final, the puzzle was solved before: an
    earlier state of the run was in the puzzle stage with the solved flag set
    and every tile at home. *)
Theorem message_only_after_solving N randomIndex events st0 st :
  Shell.initializePuzzle N randomIndex Shell.initial = Some st0 →
  Shell.run N st0 events = Some st →
  Shell.pastPuzzle (Shell.stage st) = true →
  ∃ events1 events2 st1,
    events = events1 ++ events2 ∧
    Shell.run N st0 events1 = Some st1 ∧
    Shell.stage st1 = puzzle ∧
    Shell.isSolved st1 = true ∧
    everyAtHome (Shell.tiles st1) = true.
Proof.
  intros Hi Hrun Hp. apply (Shell_gate_invariant N st0 events st); [|done|].
  - unfold Shell.initializePuzzle in Hi.
    destruct (shufflePuzzle _ _ _); simpl in Hi; [|done].
    injection Hi as <-. unfold gateOpen. simpl.
    intros [?|?%Exists_nil]; done.
  - by left.
Qed.

Lemma message_only_after_solving_witness :
  ∃ events1 events2 st1,
    [Shell.EnvelopeClick; Shell.TimerFires; Shell.StartPuzzleClick backAndForth;
     Shell.TileClick (mkTile 5 5); Shell.TileClick (mkTile 5 8);
     Shell.TimerFires; Shell.ContinueClick]
    = events1 ++ events2 ∧
    Shell.run 3
      {| Shell.tiles := initialTiles 3; Shell.isSolved := false;
         Shell.stage := envelope; Shell.envelopeOpened := false;
         Shell.noClickCount := 0; Shell.timers := [] |} events1 = Some st1 ∧
    Shell.stage st1 = puzzle ∧
    Shell.isSolved st1 = true ∧
    everyAtHome (Shell.tiles st1) = true.
Proof.
  apply (message_only_after_solving 3 backAndForth _ _
           {| Shell.tiles := initialTiles 3; Shell.isSolved := true;
              Shell.stage := question; Shell.envelopeOpened := true;
              Shell.noClickCount := 0; Shell.timers := [] |}).
  - vm_compute. reflexivity.
  - vm_compute. reflexivity.
  - reflexivity.
Defined.

Lemma Shell_dispatch_reachable N st e st' :
  reachable N (Shell.engineView st) → Shell.validEvent e →
  Shell.dispatch N st e = Some st' →
  reachable N (Shell.engineView st').
Proof.
  intros Hr Hv Hd. unfold Shell.dispatch in Hd.
  destruct e; [destruct (Shell.stage st) eqn:Hs; try done .. |].
  - by injection Hd as <-.
  - unfold Shell.handleStartPuzzle, Shell.initializePuzzle in Hd.
    destruct (shufflePuzzle N randomIndex (initialTiles N)) as [B|] eqn:Hsh;
      simpl in Hd; [|done].
    injection Hd as <-.
    apply (reachable_init N randomIndex (Shell.engineView st)); [done|].
    unfold initializePuzzle. by rewrite Hsh.
  - case_bool_decide; [|done].
    apply (reachable_click N (Shell.engineView st) clickedTile); [done..|].
    by rewrite <- Shell_engineView_click, Hd.
  - by injection Hd as <-.
  - by injection Hd as <-.
  - by injection Hd as <-.
  - assert (Shell.timerFires st = Some st') as Hf
      by (by destruct (Shell.stage st)).
    unfold Shell.timerFires in Hf.
    destruct (Shell.timers st); [done|]. by injection Hf as <-.
Qed.

(** X15. The puzzle inside the whole component goes through states of a
    session only (grid of side at least two, random draws in range): after
    the mount and any sequence of clicks and timer firings, the positions of
    the tiles are a permutation of the cells, and the solved flag is set
    only on the identity board, whatever the stage. *)
Theorem shell_keeps_puzzle_invariants N randomIndex events st0 st :
  2 ≤ N → validRandom randomIndex →
  Shell.initializePuzzle N randomIndex Shell.initial = Some st0 →
  Forall Shell.validEvent events →
  Shell.run N st0 events = Some st →
  reachable N (Shell.engineView st) ∧
  id <$> Shell.tiles st = cells N ∧
  currentPosition <$> Shell.tiles st ≡ₚ cells N ∧
  (Shell.isSolved st = true → Shell.tiles st = initialTiles N).
Proof.
  intros HN Hrnd Hi Hev Hrun.
  assert (reachable N (Shell.engineView st0)) as Hr0.
  { unfold Shell.initializePuzzle in Hi.
    destruct (shufflePuzzle N randomIndex (initialTiles N)) as [B|] eqn:Hsh;
      simpl in Hi; [|done].
    injection Hi as <-.
    apply (reachable_init N randomIndex (Shell.engineView Shell.initial));
      [done|].
    unfold initializePuzzle. by rewrite Hsh. }
  assert (reachable N (Shell.engineView st)) as Hr.
  { clear Hi. revert st0 Hr0 Hrun.
    induction Hev as [|e events He _ IH]; intros st0 Hr0 Hrun.
    { by injection Hrun as <-. }
    simpl in Hrun.
    destruct (Shell.dispatch N st0 e) as [st1|] eqn:Hd; [|done].
    apply (IH st1); [|done]. by eapply Shell_dispatch_reachable. }
  destruct (reachable_invariant N _ HN Hr) as [[Hid Hp] Hinv].
  split_and!; try done.
  intros Hs. apply (wellFormed_everyAtHome N); [done | by apply Hinv].
Qed.

Lemma shell_keeps_puzzle_invariants_witness :
  currentPosition <$> blankMovedUp ≡ₚ cells 3.
Proof.
  apply (shell_keeps_puzzle_invariants 3 backAndForth
           [Shell.EnvelopeClick; Shell.TimerFires;
            Shell.StartPuzzleClick backAndForth; Shell.TileClick (mkTile 5 5)]
           {| Shell.tiles := initialTiles 3; Shell.isSolved := false;
              Shell.stage := envelope; Shell.envelopeOpened := false;
              Shell.noClickCount := 0; Shell.timers := [] |}
           {| Shell.tiles := blankMovedUp; Shell.isSolved := false;
              Shell.stage := puzzle; Shell.envelopeOpened := true;
              Shell.noClickCount := 0; Shell.timers := [] |}).
  - lia.
  - exact validRandom_backAndForth.
  - vm_compute. reflexivity.
  - repeat constructor. exact validRandom_backAndForth.
  - vm_compute. reflexivity.
Defined.

Lemma Shell_dispatch_timer N st :
  Shell.dispatch N st Shell.TimerFires = Shell.timerFires st.
Proof. unfold Shell.dispatch. by destruct (Shell.stage st). Qed.

(** When nothing else happens, the pending timers run one after the other
    and leave the stage of the last one. *)
Lemma Shell_fire_all N pending :
  ∀ st, Shell.timers st = pending →
  ∃ st',
    Shell.run N st (replicate (length pending) Shell.TimerFires) = Some st' ∧
    Shell.timers st' = [] ∧
    Shell.stage st' = default (Shell.stage st) (last pending) ∧
    Shell.tiles st' = Shell.tiles st ∧
    Shell.isSolved st' = Shell.isSolved st.
Proof.
  induction pending as [|t pending IH]; intros st Ht.
  { exists st. by split_and!. }
  cbn [length replicate Shell.run].
  rewrite Shell_dispatch_timer. unfold Shell.timerFires. rewrite Ht. simpl.
  destruct (IH {| Shell.tiles := Shell.tiles st;
                  Shell.isSolved := Shell.isSolved st; Shell.stage := t;
                  Shell.envelopeOpened := Shell.envelopeOpened st;
                  Shell.noClickCount := Shell.noClickCount st;
                  Shell.timers := pending |} eq_refl)
    as (st' & Hrun & Ht' & Hs' & Hti & Hso).
  exists st'. split_and!; try done.
  rewrite Hs', last_cons. simpl. by destruct (last pending).
Qed.

(** X16. The click that solves the puzzle schedules the move to the message
    stage behind the timers already pending; when these timers have run, and
    nothing else has happened, the stage is message, with the board and the
    solved flag as the click left them. *)
Theorem solving_click_opens_message N st clickedTile st' :
  Shell.handleTileClick N st clickedTile = Some st' →
  Shell.isSolved st = false → Shell.isSolved st' = true →
  Shell.timers st' = Shell.timers st ++ [message] ∧
  everyAtHome (Shell.tiles st') = true ∧
  ∃ st'',
    Shell.run N st' (replicate (length (Shell.timers st')) Shell.TimerFires)
      = Some st'' ∧
    Shell.stage st'' = message ∧
    Shell.timers st'' = [] ∧
    Shell.tiles st'' = Shell.tiles st' ∧
    Shell.isSolved st'' = true.
Proof.
  intros Hh Hs Hs'.
  apply Shell_handleTileClick_cases in Hh
    as [->|[(B & Hh & ->)|(B & Hh & ->)]]; simpl in *; try congruence.
  split_and!; try done.
  destruct (Shell_fire_all N (Shell.timers st ++ [message])
              (Shell.setTimeout
                 (Shell.setIsSolved (Shell.setTiles st B) true) message)
              eq_refl) as (st'' & Hrun & Ht & Hst & Hti & Hso).
  exists st''. split_and!; try done.
  rewrite Hst, last_snoc. done.
Qed.

Lemma solving_click_opens_message_witness :
  ∃ st'',
    Shell.run 3
      {| Shell.tiles := initialTiles 3; Shell.isSolved := true;
         Shell.stage := puzzle; Shell.envelopeOpened := true;
         Shell.noClickCount := 0; Shell.timers := [preview; message] |}
      (replicate (length [preview; message]) Shell.TimerFires) = Some st'' ∧
    Shell.stage st'' = message ∧
    Shell.timers st'' = [] ∧
    Shell.tiles st'' = initialTiles 3 ∧
    Shell.isSolved st'' = true.
Proof.
  apply (solving_click_opens_message 3
           {| Shell.tiles := blankMovedUp; Shell.isSolved := false;
              Shell.stage := puzzle; Shell.envelopeOpened := true;
              Shell.noClickCount := 0; Shell.timers := [preview] |}
           (mkTile 5 8)
           {| Shell.tiles := initialTiles 3; Shell.isSolved := true;
              Shell.stage := puzzle; Shell.envelopeOpened := true;
              Shell.noClickCount := 0; Shell.timers := [preview; message] |}).
  - vm_compute. reflexivity.
  - reflexivity.
  - reflexivity.
Defined.
